(** * Smart Travel Scout: the search endpoint ([src/app/api/search/route.ts])

    A shallow embedding of the route handler: the inventory and its id
    whitelist, the two Zod schemas, the in-memory rate limiter, the
    parsing and filtering of the model's raw text, and the assembly of
    the response.

    JavaScript values are modelled as they are at run time: strings are
    sequences of UTF-16 code units, numbers are IEEE 754 binary64
    values, objects are ordered property lists, and [JSON.parse] is a
    lexer and a pushdown parser over code units.  What the handler takes
    from its environment is made explicit: the value of [Date.now()],
    the contents of [ipRequestMap] before and after a call, and the
    outcome of the gateway call (the system prompt and the model
    configuration are constants of that call and are left out).  A
    thrown exception is the [None] of an option, or a [thrown] value
    where its message reaches the client.

    The page ([src/app/(frontend)/page.tsx]) is embedded as far as it
    talks to the handler: the body [handleSearch] sends
    ([JSON.stringify] of the trimmed prompt), and the state it leaves
    for each way the request can end.  The focus it gives back to the
    text area on a blank prompt and the markup are left out. *)

From Stdlib Require Import ZArith NArith List Bool Lia String Ascii.
From Stdlib Require Import Floats.SpecFloat.
From stdpp Require Import base option list gmap.
Import ListNotations.

#[local] Set Warnings "-register-all".
Local Open Scope Z_scope.

(** ** JavaScript strings *)

(** A JavaScript string is a sequence of UTF-16 code units; [length]
    counts code units, as [String.prototype.length] does. *)
Definition jsstring := list N.

(** The code units of an ASCII literal of the source. *)
Definition js (s : string) : jsstring :=
  map N_of_ascii (list_ascii_of_string s).

(** The code units of a text literal in which the apostrophe stands for
    the quotation mark (U+0022), so that JSON texts can be written
    inline. *)
Definition jsq (s : string) : jsstring :=
  map (fun c => if (c =? 39)%N then 34%N else c) (js s).

Definition jsstring_eqb (a b : jsstring) : bool := bool_decide (a = b).

(** ** JavaScript numbers *)

(** Numbers are binary64 floating-point values ([prec = 53],
    [emax = 1024]). *)
Definition number := spec_float.

Definition prec : Z := 53.
Definition emax : Z := 1024.

(** The number denoted by an integer literal of the source. *)
Definition num (z : Z) : number := binary_normalize prec emax z 0 false.

(** The number value of the decimal [(-1)^neg * m * 10^e10], rounded to
    nearest, ties to even. *)
Definition number_of_decimal (neg : bool) (m : N) (e10 : Z) : number :=
  match m with
  | N0 => S754_zero neg
  | Npos p =>
      if 0 <=? e10
      then binary_normalize prec emax
             ((if neg then Z.neg p else Z.pos p) * 10 ^ e10) 0 false
      else SFdiv prec emax (S754_finite neg p 0)
             (S754_finite false (Z.to_pos (10 ^ (- e10))) 0)
  end.

(** [Number.isInteger]. *)
Definition Number_isInteger (x : number) : bool :=
  match x with
  | S754_zero _ => true
  | S754_finite _ m e =>
      if 0 <=? e then true else Z.pos m mod 2 ^ (- e) =? 0
  | _ => false
  end.

(** [===] on two numbers. *)
Definition number_eqb (x y : number) : bool := SFeqb x y.

(** ** JSON values *)

Inductive json :=
| JNull
| JBool (b : bool)
| JNum (x : number)
| JStr (s : jsstring)
| JArr (elems : list json)
| JObj (props : list (jsstring * json)).

(** Property read on an ordinary object; [None] is [undefined]. *)
Fixpoint get_prop (props : list (jsstring * json)) (k : jsstring) : option json :=
  match props with
  | [] => None
  | (k', v) :: rest => if jsstring_eqb k' k then Some v else get_prop rest k
  end.

(** Property definition as [JSON.parse] performs it: an existing key
    keeps its position and takes the new value, a new key goes last. *)
Fixpoint set_prop (props : list (jsstring * json)) (k : jsstring) (v : json)
  : list (jsstring * json) :=
  match props with
  | [] => [(k, v)]
  | (k', v') :: rest =>
      if jsstring_eqb k' k then (k', v) :: rest
      else (k', v') :: set_prop rest k v
  end.

(** ** [JSON.parse]: lexical analysis *)

Inductive token :=
| TLBrace | TRBrace | TLBracket | TRBracket | TColon | TComma
| TString (s : jsstring)
| TNumber (x : number)
| TTrue | TFalse | TNull.

Definition is_digit (c : N) : bool := ((48 <=? c) && (c <=? 57))%N.
Definition is_lower (c : N) : bool := ((97 <=? c) && (c <=? 122))%N.

(** The characters a number literal is made of: digits, [+ - . e E]. *)
Definition is_number_char (c : N) : bool :=
  is_digit c || (c =? 43)%N || (c =? 45)%N || (c =? 46)%N
  || (c =? 101)%N || (c =? 69)%N.

(** JSON white space: tab, line feed, carriage return, space. *)
Definition is_json_space (c : N) : bool :=
  ((c =? 9) || (c =? 10) || (c =? 13) || (c =? 32))%N.

Definition hex_digit (c : N) : option N :=
  if is_digit c then Some (c - 48)%N
  else if ((97 <=? c) && (c <=? 102))%N then Some (c - 87)%N
  else if ((65 <=? c) && (c <=? 70))%N then Some (c - 55)%N
  else None.

Fixpoint span_digits (s : jsstring) : jsstring * jsstring :=
  match s with
  | c :: rest =>
      if is_digit c
      then let '(ds, tl) := span_digits rest in (c :: ds, tl)
      else ([], s)
  | [] => ([], [])
  end.

Definition digits_value (ds : jsstring) : N :=
  fold_left (fun acc c => (10 * acc + (c - 48))%N) ds 0%N.

(** The exponent part: nothing, or [e]/[E], an optional sign and at
    least one digit, up to the end of the literal. *)
Definition parse_exponent (s : jsstring) : option Z :=
  match s with
  | [] => Some 0
  | c :: rest =>
      if ((c =? 101) || (c =? 69))%N then
        let '(neg, rest') :=
          match rest with
          | 45%N :: r => (true, r)
          | 43%N :: r => (false, r)
          | _ => (false, rest)
          end in
        match span_digits rest' with
        | ((_ :: _) as ds, []) =>
            let e := Z.of_N (digits_value ds) in
            Some (if neg then - e else e)
        | _ => None
        end
      else None
  end.

(** A whole number literal: an optional minus sign; an integer part
    that is a single 0 or starts with a non-zero digit; an optional
    fraction of a dot and at least one digit; an optional exponent. *)
Definition parse_number (s : jsstring) : option number :=
  let '(neg, s1) :=
    match s with
    | 45%N :: r => (true, r)
    | _ => (false, s)
    end in
  let '(ip, s2) := span_digits s1 in
  let leading_ok :=
    match ip with
    | [] => false
    | 48%N :: _ :: _ => false
    | _ => true
    end in
  if leading_ok then
    let frac :=
      match s2 with
      | 46%N :: r =>
          match span_digits r with
          | ((_ :: _) as fp, s3) => Some (fp, s3)
          | _ => None
          end
      | _ => Some ([], s2)
      end in
    match frac with
    | Some (fp, s3) =>
        match parse_exponent s3 with
        | Some e =>
            Some (number_of_decimal neg (digits_value (ip ++ fp))
                    (e - Z.of_nat (length fp)))
        | None => None
        end
    | None => None
    end
  else None.

Definition word_token (w : jsstring) : option token :=
  if jsstring_eqb w (js "true") then Some TTrue
  else if jsstring_eqb w (js "false") then Some TFalse
  else if jsstring_eqb w (js "null") then Some TNull
  else None.

(** The lexer reads one code unit at a time. *)
Inductive lexmode :=
| LStart
| LString (acc : jsstring)
| LEscape (acc : jsstring)
| LUnicode (acc : jsstring) (todo : nat) (v : N)
| LNumber (acc : jsstring)
| LWord (acc : jsstring).

Definition lex_start (out : list token) (c : N) : option (lexmode * list token) :=
  if is_json_space c then Some (LStart, out)
  else if (c =? 123)%N then Some (LStart, TLBrace :: out)
  else if (c =? 125)%N then Some (LStart, TRBrace :: out)
  else if (c =? 91)%N then Some (LStart, TLBracket :: out)
  else if (c =? 93)%N then Some (LStart, TRBracket :: out)
  else if (c =? 58)%N then Some (LStart, TColon :: out)
  else if (c =? 44)%N then Some (LStart, TComma :: out)
  else if (c =? 34)%N then Some (LString [], out)
  else if is_digit c || (c =? 45)%N then Some (LNumber [c], out)
  else if is_lower c then Some (LWord [c], out)
  else None.

Definition lex_escape (c : N) : option N :=
  match c with
  | 34%N => Some 34%N     (* quotation mark *)
  | 92%N => Some 92%N     (* reverse solidus *)
  | 47%N => Some 47%N     (* solidus *)
  | 98%N => Some 8%N      (* b: backspace *)
  | 102%N => Some 12%N    (* f: form feed *)
  | 110%N => Some 10%N    (* n: line feed *)
  | 114%N => Some 13%N    (* r: carriage return *)
  | 116%N => Some 9%N     (* t: tab *)
  | _ => None
  end.

Definition lex_char (m : lexmode) (out : list token) (c : N)
  : option (lexmode * list token) :=
  match m with
  | LStart => lex_start out c
  | LString acc =>
      if (c =? 34)%N then Some (LStart, TString (rev acc) :: out)
      else if (c =? 92)%N then Some (LEscape acc, out)
      else if (c <? 32)%N then None
      else Some (LString (c :: acc), out)
  | LEscape acc =>
      if (c =? 117)%N then Some (LUnicode acc 4 0%N, out)
      else match lex_escape c with
           | Some u => Some (LString (u :: acc), out)
           | None => None
           end
  | LUnicode acc todo v =>
      match hex_digit c with
      | Some d =>
          let v' := (16 * v + d)%N in
          match todo with
          | 1%nat => Some (LString (v' :: acc), out)
          | S todo' => Some (LUnicode acc todo' v', out)
          | O => None
          end
      | None => None
      end
  | LNumber acc =>
      if is_number_char c then Some (LNumber (c :: acc), out)
      else match parse_number (rev acc) with
           | Some x => lex_start (TNumber x :: out) c
           | None => None
           end
  | LWord acc =>
      if is_lower c then Some (LWord (c :: acc), out)
      else match word_token (rev acc) with
           | Some t => lex_start (t :: out) c
           | None => None
           end
  end.

Definition lex_end (m : lexmode) (out : list token) : option (list token) :=
  match m with
  | LStart => Some (rev out)
  | LNumber acc =>
      match parse_number (rev acc) with
      | Some x => Some (rev (TNumber x :: out))
      | None => None
      end
  | LWord acc =>
      match word_token (rev acc) with
      | Some t => Some (rev (t :: out))
      | None => None
      end
  | _ => None
  end.

Fixpoint lex_from (m : lexmode) (out : list token) (s : jsstring)
  : option (list token) :=
  match s with
  | [] => lex_end m out
  | c :: rest =>
      match lex_char m out c with
      | Some (m', out') => lex_from m' out' rest
      | None => None
      end
  end.

Definition tokenize (s : jsstring) : option (list token) := lex_from LStart [] s.

(** ** [JSON.parse]: syntactic analysis *)

(** The parser is a pushdown automaton over the tokens.  A frame is an
    array or an object under construction. *)
Inductive frame :=
| FArray (acc : list json)
| FObject (props : list (jsstring * json))
| FMember (props : list (jsstring * json)) (key : jsstring).

Inductive pstate :=
| PValue          (* a value must follow *)
| PValueOrEnd     (* just after an opening bracket *)
| PKeyOrEnd       (* just after an opening brace *)
| PKey            (* after a comma inside an object *)
| PColon          (* after a member name *)
| PAfter          (* after a value inside an array or an object *)
| PDone (v : json).

(** A finished value goes to the enclosing frame, or is the result. *)
Definition push_value (v : json) (stack : list frame)
  : option (pstate * list frame) :=
  match stack with
  | [] => Some (PDone v, [])
  | FArray acc :: st => Some (PAfter, FArray (v :: acc) :: st)
  | FMember props k :: st => Some (PAfter, FObject (set_prop props k v) :: st)
  | FObject _ :: _ => None
  end.

Definition parse_value_token (t : token) (stack : list frame)
  : option (pstate * list frame) :=
  match t with
  | TString s => push_value (JStr s) stack
  | TNumber x => push_value (JNum x) stack
  | TTrue => push_value (JBool true) stack
  | TFalse => push_value (JBool false) stack
  | TNull => push_value JNull stack
  | TLBracket => Some (PValueOrEnd, FArray [] :: stack)
  | TLBrace => Some (PKeyOrEnd, FObject [] :: stack)
  | _ => None
  end.

Definition close_array (stack : list frame) : option (pstate * list frame) :=
  match stack with
  | FArray acc :: st => push_value (JArr (rev acc)) st
  | _ => None
  end.

Definition close_object (stack : list frame) : option (pstate * list frame) :=
  match stack with
  | FObject props :: st => push_value (JObj props) st
  | _ => None
  end.

Definition open_member (k : jsstring) (stack : list frame)
  : option (pstate * list frame) :=
  match stack with
  | FObject props :: st => Some (PColon, FMember props k :: st)
  | _ => None
  end.

Definition parse_token (ps : pstate) (stack : list frame) (t : token)
  : option (pstate * list frame) :=
  match ps with
  | PValue => parse_value_token t stack
  | PValueOrEnd =>
      match t with
      | TRBracket => close_array stack
      | _ => parse_value_token t stack
      end
  | PKeyOrEnd =>
      match t with
      | TRBrace => close_object stack
      | TString k => open_member k stack
      | _ => None
      end
  | PKey =>
      match t with
      | TString k => open_member k stack
      | _ => None
      end
  | PColon =>
      match t with
      | TColon => Some (PValue, stack)
      | _ => None
      end
  | PAfter =>
      match t, stack with
      | TComma, FArray _ :: _ => Some (PValue, stack)
      | TComma, FObject _ :: _ => Some (PKey, stack)
      | TRBracket, _ => close_array stack
      | TRBrace, _ => close_object stack
      | _, _ => None
      end
  | PDone _ => None
  end.

Fixpoint parse_tokens (ps : pstate) (stack : list frame) (ts : list token)
  : option json :=
  match ts with
  | [] => match ps with PDone v => Some v | _ => None end
  | t :: rest =>
      match parse_token ps stack t with
      | Some (ps', stack') => parse_tokens ps' stack' rest
      | None => None
      end
  end.

(** [JSON.parse]; [None] stands for the [SyntaxError] it throws. *)
Definition JSON_parse (text : jsstring) : option json :=
  match tokenize text with
  | Some ts => parse_tokens PValue [] ts
  | None => None
  end.

(** ** Property order: [Object.values] *)

(** A key is an array index when it is the canonical decimal form of an
    integer below 2^32 - 1. *)
Definition array_index (k : jsstring) : option N :=
  match k with
  | [] => None
  | [48%N] => Some 0%N
  | 48%N :: _ => None
  | _ =>
      if forallb is_digit k && (length k <=? 10)%nat
      then let n := digits_value k in
           if (n <? 4294967295)%N then Some n else None
      else None
  end.

Fixpoint insert_by_index (e : N * json) (l : list (N * json)) : list (N * json) :=
  match l with
  | [] => [e]
  | e' :: rest =>
      if (fst e <? fst e')%N then e :: l else e' :: insert_by_index e rest
  end.

Definition indexed_props (props : list (jsstring * json)) : list (N * json) :=
  fold_left
    (fun acc kv =>
       match array_index (fst kv) with
       | Some n => insert_by_index (n, snd kv) acc
       | None => acc
       end)
    props [].

Definition is_array_index (k : jsstring) : bool :=
  match array_index k with Some _ => true | None => false end.

Definition named_props (props : list (jsstring * json)) : list json :=
  map snd (List.filter (fun kv => negb (is_array_index (fst kv))) props).

(** Own property values of an ordinary object: array-index keys in
    ascending order, then the other keys in creation order. *)
Definition own_values (props : list (jsstring * json)) : list json :=
  map snd (indexed_props props) ++ named_props props.

(** [Object.values(v)]; [None] stands for the [TypeError] thrown on
    [null].  A string has one value per code unit; numbers and booleans
    have none. *)
Definition Object_values (v : json) : option (list json) :=
  match v with
  | JNull => None
  | JBool _ | JNum _ => Some []
  | JStr s => Some (map (fun c => JStr [c]) s)
  | JArr elems => Some elems
  | JObj props => Some (own_values props)
  end.

Definition Array_isArray (v : json) : bool :=
  match v with JArr _ => true | _ => false end.

(** [m?.k] for a key [k] that no built-in prototype defines (here [id]
    and [reason]): only an object can have it. *)
Definition optional_member (m : json) (k : jsstring) : option json :=
  match m with
  | JObj props => get_prop props k
  | _ => None
  end.

(** ** The inventory *)

Record InventoryItem := {
  id : number;
  title : jsstring;
  location : jsstring;
  price : number;
  tags : list jsstring
}.

Definition INVENTORY : list InventoryItem := [
  {| id := num 1; title := js "High-Altitude Tea Trails";
     location := js "Nuwara Eliya"; price := num 120;
     tags := [js "cold"; js "nature"; js "hiking"] |};
  {| id := num 2; title := js "Coastal Heritage Wander";
     location := js "Galle Fort"; price := num 45;
     tags := [js "history"; js "culture"; js "walking"] |};
  {| id := num 3; title := js "Wild Safari Expedition";
     location := js "Yala"; price := num 250;
     tags := [js "animals"; js "adventure"; js "photography"] |};
  {| id := num 4; title := js "Surf & Chill Retreat";
     location := js "Arugam Bay"; price := num 80;
     tags := [js "beach"; js "surfing"; js "young-vibe"] |};
  {| id := num 5; title := js "Ancient City Exploration";
     location := js "Sigiriya"; price := num 110;
     tags := [js "history"; js "climbing"; js "view"] |}
].

Definition VALID_IDS : list number := map id INVENTORY.

(** The comparison of [Array.prototype.includes] (SameValueZero) on two
    numbers. *)
Definition same_value_zero (x y : number) : bool :=
  match x, y with
  | S754_nan, S754_nan => true
  | _, _ => number_eqb x y
  end.

(** [l.includes(v)] for an array of numbers and any value [v]
    ([None] is [undefined]): only a number can be found. *)
Definition includes (l : list number) (v : option json) : bool :=
  match v with
  | Some (JNum x) => existsb (fun y => same_value_zero y x) l
  | _ => false
  end.

(** ** Zod schemas *)

(** The type names Zod prints in its default messages. *)
Definition parsed_type (v : option json) : jsstring :=
  match v with
  | None => js "undefined"
  | Some JNull => js "null"
  | Some (JBool _) => js "boolean"
  | Some (JNum S754_nan) => js "nan"
  | Some (JNum _) => js "number"
  | Some (JStr _) => js "string"
  | Some (JArr _) => js "array"
  | Some (JObj _) => js "object"
  end.

(** Zod's message for a value of the wrong type: the schema's
    [required_error] (default [Required]) when the value is [undefined],
    else the default text. *)
Definition invalid_type_message (required_error : option jsstring)
    (expected : jsstring) (v : option json) : jsstring :=
  match v with
  | None => default (js "Required") required_error
  | Some _ => js "Expected " ++ expected ++ js ", received " ++ parsed_type v
  end.

(** [z.string({required_error}).min(1, ..).max(500, ..)] on the value of
    [prompt]: the issues found, in the order of the checks, or the
    string. *)
Definition prompt_schema (v : option json) : list jsstring + jsstring :=
  match v with
  | Some (JStr s) =>
      let too_small :=
        if (length s <? 1)%nat then [js "prompt cannot be empty"] else [] in
      let too_big :=
        if (500 <? length s)%nat
        then [js "prompt must be 500 characters or fewer"] else [] in
      match too_small ++ too_big with
      | [] => inr s
      | issues => inl issues
      end
  | _ => inl [invalid_type_message (Some (js "prompt is required")) (js "string") v]
  end.

(** [RequestSchema.safeParse(body)]: [inl] carries the messages of
    [error.errors], [inr] the prompt of [data]. *)
Definition RequestSchema_safeParse (body : json) : list jsstring + jsstring :=
  match body with
  | JObj props => prompt_schema (get_prop props (js "prompt"))
  | _ => inl [invalid_type_message None (js "object") (Some body)]
  end.

(** The [id] schema: a number, not NaN, an integer, and a member of
    [VALID_IDS]. *)
Definition id_schema (v : option json) : option number :=
  match v with
  | Some (JNum S754_nan) => None
  | Some (JNum x) =>
      if Number_isInteger x && includes VALID_IDS (Some (JNum x))
      then Some x else None
  | _ => None
  end.

(** The [reason] schema: a string of length at least 1. *)
Definition reason_schema (v : option json) : option jsstring :=
  match v with
  | Some (JStr s) => if (1 <=? length s)%nat then Some s else None
  | _ => None
  end.

(** One element of [AiMatchSchema]: an object whose [id] and [reason]
    pass; the output keeps these two keys only. *)
Definition match_schema (v : json) : option json :=
  match v with
  | JObj props =>
      match id_schema (get_prop props (js "id")),
            reason_schema (get_prop props (js "reason")) with
      | Some x, Some r => Some (JObj [(js "id", JNum x); (js "reason", JStr r)])
      | _, _ => None
      end
  | _ => None
  end.

(** [AiMatchSchema.safeParse(candidate)] on an array: [Some data] on
    success, [None] when any element fails. *)
Definition AiMatchSchema_safeParse (candidate : list json) : option (list json) :=
  mapM match_schema candidate.

(** ** The rate limiter *)

Definition RATE_LIMIT : Z := 5.
Definition RATE_WINDOW_MS : Z := 60000.

Record Entry := { count : Z; windowStart : Z }.

(** [isRateLimited(ip)] with the value of [Date.now()] and the contents
    of [ipRequestMap] made explicit; the second component is the map
    after the call. *)
Definition isRateLimited (ip : jsstring) (now : Z) (m : gmap jsstring Entry)
  : bool * gmap jsstring Entry :=
  match m !! ip with
  | Some entry =>
      if now - windowStart entry >? RATE_WINDOW_MS
      then (false, <[ip := {| count := 1; windowStart := now |}]> m)
      else if count entry >=? RATE_LIMIT then (true, m)
      else (false, <[ip := {| count := count entry + 1;
                              windowStart := windowStart entry |}]> m)
  | None => (false, <[ip := {| count := 1; windowStart := now |}]> m)
  end.

(** ** Step 4 of the handler: from the model's raw text to [aiMatches] *)

(** The candidate array: the parsed value itself when it is an array,
    else the first array among [Object.values(jsonParsed)], else the
    empty array.  [None] stands for the [TypeError] of [Object.values]
    on [null]. *)
Definition candidate_of (jsonParsed : json) : option (list json) :=
  match jsonParsed with
  | JArr elems => Some elems
  | _ =>
      match Object_values jsonParsed with
      | Some values =>
          Some (match List.find Array_isArray values with
                | Some (JArr elems) => elems
                | _ => []
                end)
      | None => None
      end
  end.

Definition typeof_string (v : option json) : bool :=
  match v with Some (JStr _) => true | _ => false end.

(** The predicate of the fallback filter. *)
Definition lenient_keep (m : json) : bool :=
  includes VALID_IDS (optional_member m (js "id"))
  && typeof_string (optional_member m (js "reason")).

(** The strict schema first; when it fails, the per-element filter. *)
Definition validate_candidate (candidate : list json) : list json :=
  match AiMatchSchema_safeParse candidate with
  | Some data => data
  | None => List.filter lenient_keep candidate
  end.

Definition sanitize_value (jsonParsed : json) : option (list json) :=
  match candidate_of jsonParsed with
  | Some candidate => Some (validate_candidate candidate)
  | None => None
  end.

(** The body of the inner [try]; [None] when it throws. *)
Definition sanitize_try (rawContent : jsstring) : option (list json) :=
  match JSON_parse rawContent with
  | Some jsonParsed => sanitize_value jsonParsed
  | None => None
  end.

(** The inner [try]/[catch]: [aiMatches] after step 4. *)
Definition sanitize (rawContent : jsstring) : list json :=
  match sanitize_try rawContent with
  | Some aiMatches => aiMatches
  | None => []
  end.

(** ** Step 5: joining the matches to the inventory *)

(** [{ ...item, reason }]: the fields of the inventory item and the
    reason read from the match ([None] is [undefined]). *)
Record SearchResult := { item : InventoryItem; reason : option json }.

(** [inv.id === id] for a number and any value. *)
Definition strict_equals (x : number) (v : option json) : bool :=
  match v with
  | Some (JNum y) => number_eqb x y
  | _ => false
  end.

(** The callback of [map]: the outer [None] is the [TypeError] of
    destructuring [null], the inner [None] is the returned [null]. *)
Definition join_match (m : json) : option (option SearchResult) :=
  match m with
  | JNull => None
  | _ =>
      let id_ := optional_member m (js "id") in
      let reason_ := optional_member m (js "reason") in
      Some (match List.find (fun inv => strict_equals (id inv) id_) INVENTORY with
            | Some it => Some {| item := it; reason := reason_ |}
            | None => None
            end)
  end.

(** [aiMatches.map(..).filter(Boolean)]; [None] when the callback
    throws. *)
Definition assemble (aiMatches : list json) : option (list SearchResult) :=
  match mapM join_match aiMatches with
  | Some joined => Some (omap (fun r => r) joined)
  | None => None
  end.

(** ** The handler *)

(** White space and line terminators, as [String.prototype.trim]
    removes them. *)
Definition is_js_space (c : N) : bool :=
  (((9 <=? c) && (c <=? 13)) || (c =? 32) || (c =? 160) || (c =? 5760)
   || ((8192 <=? c) && (c <=? 8202)) || (c =? 8232) || (c =? 8233)
   || (c =? 8239) || (c =? 8287) || (c =? 12288) || (c =? 65279))%N.

Fixpoint drop_spaces (s : jsstring) : jsstring :=
  match s with
  | c :: rest => if is_js_space c then drop_spaces rest else s
  | [] => []
  end.

Definition trim (s : jsstring) : jsstring :=
  rev (drop_spaces (rev (drop_spaces s))).

(** [s.split(',')[0]]: the text before the first comma. *)
Fixpoint first_field (s : jsstring) : jsstring :=
  match s with
  | c :: rest => if (c =? 44)%N then [] else c :: first_field rest
  | [] => []
  end.

(** What the handler reads of a request: the two address headers
    ([None] when absent) and the text of the body. *)
Record Request := {
  x_forwarded_for : option jsstring;
  x_real_ip : option jsstring;
  body : jsstring
}.

Definition client_ip (request : Request) : jsstring :=
  match x_forwarded_for request with
  | Some h => trim (first_field h)
  | None => default (js "unknown") (x_real_ip request)
  end.

(** A thrown value: an [Error] with its message, a [TypeError] raised
    by the engine (whose message text the engine chooses), or a value
    that is not an [Error]. *)
Inductive thrown :=
| ErrorObject (message : jsstring)
| EngineTypeError
| NonError.

Inductive error_text :=
| Text (s : jsstring)
| EngineMessage.

(** [error instanceof Error ? error.message : 'Internal server error']. *)
Definition error_message (e : thrown) : error_text :=
  match e with
  | ErrorObject message => Text message
  | EngineTypeError => EngineMessage
  | NonError => Text (js "Internal server error")
  end.

Inductive Payload :=
| Results (results : list SearchResult)
| Error (error : error_text).

Record Response := { status : Z; payload : Payload }.

(** The outcome of [ai.models.generateContent] for a prompt: it throws,
    or it returns a response whose [text] may be [undefined]. *)
Definition Gateway := jsstring -> thrown + option jsstring.

(** What one run of the handler leaves behind: the response, the
    contents of [ipRequestMap], and the prompts sent to the gateway. *)
Record Outcome := {
  response : Response;
  limiter : gmap jsstring Entry;
  gateway_calls : list jsstring
}.

(** The answer to a rate-limited request. *)
Definition too_many_requests : Response :=
  {| status := 429;
     payload := Error (Text (js
       "Too many requests. Please wait a moment before trying again.")) |}.

(** [request.json().catch(() => ({}))]. *)
Definition request_json (request : Request) : json :=
  default (JObj []) (JSON_parse (body request)).

Definition POST (generateContent : Gateway) (now : Z)
    (ipRequestMap : gmap jsstring Entry) (request : Request) : Outcome :=
  let ip := client_ip request in
  let '(limited, ipRequestMap') := isRateLimited ip now ipRequestMap in
  if limited then
    {| response := too_many_requests;
       limiter := ipRequestMap'; gateway_calls := [] |}
  else
    match RequestSchema_safeParse (request_json request) with
    | inl errors =>
        {| response :=
             {| status := 400;
                payload := Error (Text (default (js "Invalid request") (head errors))) |};
           limiter := ipRequestMap'; gateway_calls := [] |}
    | inr prompt =>
        match generateContent prompt with
        | inl e =>
            {| response := {| status := 500; payload := Error (error_message e) |};
               limiter := ipRequestMap'; gateway_calls := [prompt] |}
        | inr text =>
            let rawContent := default (js "[]") text in
            let aiMatches := sanitize rawContent in
            match assemble aiMatches with
            | Some results =>
                {| response := {| status := 200; payload := Results results |};
                   limiter := ipRequestMap'; gateway_calls := [prompt] |}
            | None =>
                {| response :=
                     {| status := 500; payload := Error (error_message EngineTypeError) |};
                   limiter := ipRequestMap'; gateway_calls := [prompt] |}
            end
        end
    end.

(** * Notions used in the statements *)

(** A finite number other than zero. *)
Definition is_finite_nonzero (x : number) : Prop :=
  match x with S754_finite _ _ _ => True | _ => False end.

(** A match whose [id] is a whitelisted number. *)
Definition whitelisted (m : json) : Prop :=
  exists x, optional_member m (js "id") = Some (JNum x) /\ In x VALID_IDS.

(** A match whose [reason] is a string. *)
Definition has_string_reason (m : json) : Prop :=
  exists r, optional_member m (js "reason") = Some (JStr r).

(** The result a match contributes, if any. *)
Definition joined (m : json) : option SearchResult :=
  match join_match m with
  | Some (Some r) => Some r
  | _ => None
  end.

(** The ids of the results a response carries. *)
Definition result_ids (resp : Response) : list number :=
  match payload resp with
  | Results results => map (fun r => id (item r)) results
  | Error _ => []
  end.

(** A match whose id is the id of an inventory item. *)
Definition known (m : json) : bool :=
  existsb (fun inv => strict_equals (id inv) (optional_member m (js "id")))
          INVENTORY.

(** What the client sees of a result next to what the match said: the
    id and the reason. *)
Definition result_key (r : SearchResult) : option json * option json :=
  (Some (JNum (id (item r))), reason r).

(** The id and the reason a match carries. *)
Definition match_key (m : json) : option json * option json :=
  (optional_member m (js "id"), optional_member m (js "reason")).

(** The candidate list as the specification words it: the parsed value
    when it is an array; for an object, the first of its values that is
    an array; the empty list otherwise. *)
Definition candidate_spec (jsonParsed : json) : list json :=
  match jsonParsed with
  | JArr elems => elems
  | JObj props =>
      match List.find Array_isArray (own_values props) with
      | Some (JArr elems) => elems
      | _ => []
      end
  | _ => []
  end.

(** Successive calls of [isRateLimited] for one client at the given
    times: the answers, and the map after the last call. *)
Fixpoint calls (ip : jsstring) (times : list Z) (m : gmap jsstring Entry)
  : list bool * gmap jsstring Entry :=
  match times with
  | [] => ([], m)
  | now :: rest =>
      let '(limited, m') := isRateLimited ip now m in
      let '(answers, m'') := calls ip rest m' in
      (limited :: answers, m'')
  end.

(** The requests of one client served one after the other, each at its
    time, on the map the previous one left. *)
Fixpoint serve (generateContent : Gateway) (requests : list (Z * Request))
    (m : gmap jsstring Entry) : list Response :=
  match requests with
  | [] => []
  | (now, request) :: rest =>
      let out := POST generateContent now m request in
      response out :: serve generateContent rest (limiter out)
  end.

(** A well-formed match object. *)
Definition pick (n : Z) (why : jsstring) : json :=
  JObj [(js "id", JNum (num n)); (js "reason", JStr why)].

(** A request with a valid prompt and no address header. *)
Definition beach_request : Request :=
  {| x_forwarded_for := None; x_real_ip := None;
     body := jsq "{'prompt':'a chilled beach weekend under $100'}" |}.

(** A request without address headers whose body has no prompt. *)
Definition empty_request : Request :=
  {| x_forwarded_for := None; x_real_ip := None; body := jsq "{}" |}.

(** * Runs of the handler *)

(** A request as it arrives: the gateway outcome it would meet, the
    value of [Date.now()] when the limiter reads it, and the request. *)
Definition Arrival : Type := Gateway * Z * Request.

Definition client_of (a : Arrival) : jsstring := client_ip (snd a).

(** The requests handled one after the other, each on the map the
    previous one left in [ipRequestMap]. *)
Fixpoint handle_all (arrivals : list Arrival) (m : gmap jsstring Entry)
  : list Outcome :=
  match arrivals with
  | [] => []
  | (generateContent, now, request) :: rest =>
      let out := POST generateContent now m request in
      out :: handle_all rest (limiter out)
  end.

(** The contents of [ipRequestMap] after the requests. *)
Fixpoint limiter_after (arrivals : list Arrival) (m : gmap jsstring Entry)
  : gmap jsstring Entry :=
  match arrivals with
  | [] => m
  | (generateContent, now, request) :: rest =>
      limiter_after rest (limiter (POST generateContent now m request))
  end.

Definition time_of (a : Arrival) : Z := snd (fst a).

(** A request that carries neither address header. *)
Definition header_less (request : Request) : Prop :=
  x_forwarded_for request = None /\ x_real_ip request = None.

(** A text made of white space only. *)
Definition blank (s : jsstring) : Prop :=
  Forall (fun c => is_js_space c = true) s.

(** A text that neither starts nor ends with white space. *)
Definition trimmed (s : jsstring) : Prop :=
  (forall c, head s = Some c -> is_js_space c = false)
  /\ (forall c, last s = Some c -> is_js_space c = false).

(** Every count is between 1 and the limit. *)
Definition limiter_ok (m : gmap jsstring Entry) : Prop :=
  map_Forall (fun _ entry => 1 <= count entry <= RATE_LIMIT) m.

(** * The page ([src/app/(frontend)/page.tsx]) *)

(** ** [JSON.stringify] on strings *)

Definition is_high_surrogate (c : N) : bool := ((55296 <=? c) && (c <=? 56319))%N.
Definition is_low_surrogate (c : N) : bool := ((56320 <=? c) && (c <=? 57343))%N.

(** The lower-case hexadecimal digit of a value below 16. *)
Definition hex_char (d : N) : N := (if d <? 10 then 48 + d else 87 + d)%N.

(** A reverse solidus, the letter u and the four hexadecimal digits of
    the code unit. *)
Definition unicode_escape (c : N) : jsstring :=
  [92%N; 117%N; hex_char ((c / 4096) mod 16); hex_char ((c / 256) mod 16);
   hex_char ((c / 16) mod 16); hex_char (c mod 16)].

(** One code unit that is not a surrogate: the two-character escapes,
    the four-digit escape for the other control characters, or the code
    unit itself. *)
Definition quote_unit (c : N) : jsstring :=
  if (c =? 8)%N then [92%N; 98%N]
  else if (c =? 9)%N then [92%N; 116%N]
  else if (c =? 10)%N then [92%N; 110%N]
  else if (c =? 12)%N then [92%N; 102%N]
  else if (c =? 13)%N then [92%N; 114%N]
  else if (c =? 34)%N then [92%N; 34%N]
  else if (c =? 92)%N then [92%N; 92%N]
  else if (c <? 32)%N then unicode_escape c
  else [c].

(** The text goes code point by code point: a surrogate pair is kept as
    it is, a surrogate without its partner is escaped. *)
Fixpoint quote_units (s : jsstring) : jsstring :=
  match s with
  | [] => []
  | c :: rest =>
      if is_high_surrogate c then
        match rest with
        | d :: rest' =>
            if is_low_surrogate d then c :: d :: quote_units rest'
            else unicode_escape c ++ quote_units rest
        | [] => unicode_escape c
        end
      else if is_low_surrogate c then unicode_escape c ++ quote_units rest
      else quote_unit c ++ quote_units rest
  end.

(** [JSON.stringify] of a string. *)
Definition QuoteJSONString (s : jsstring) : jsstring :=
  34%N :: quote_units s ++ [34%N].

(** The lexer run over a piece of text: the mode and the tokens it
    reaches, [None] when it fails inside. *)
Fixpoint lex_run (m : lexmode) (out : list token) (s : jsstring)
  : option (lexmode * list token) :=
  match s with
  | [] => Some (m, out)
  | c :: rest =>
      match lex_char m out c with
      | Some (m', out') => lex_run m' out' rest
      | None => None
      end
  end.

(** ** The component *)

Module Page.

(** The cap of the text area. *)
Definition MAX_PROMPT_LENGTH : nat := 500.

(** A text the page shows as an error: a string; [String(v)] of a JSON
    value that is not a string; the text [Request failed (status)]; or
    the message of an error raised by the platform, whose wording the
    platform chooses. *)
Inductive Message :=
| Said (s : jsstring)
| Converted (v : json)
| RequestFailed (status : Z)
| PlatformText.

(** The state of the component. [results] is whatever
    [data.results ?? []] was. *)
Record State := {
  prompt : jsstring;
  loading : bool;
  results : option json;
  error : option Message;
  hasSearched : bool
}.

(** How [fetch] and the reading of the answer end: [fetch] rejects,
    with an [Error] of some message or ([None]) with another value; or
    it resolves with a status and a body, for which [res.json()] gives a
    value or ([None]) rejects. *)
Inductive Fetched :=
| Failed (message : option Message)
| Answered (status : Z) (data : option json).

(** [res.ok]. *)
Definition ok (status : Z) : bool := (200 <=? status) && (status <=? 299).

(** [JSON.stringify({ prompt: trimmed })]. *)
Definition request_body (trimmed : jsstring) : jsstring :=
  jsq "{'prompt':" ++ QuoteJSONString trimmed ++ js "}".

(** The text of [new Error(errData.error ?? ...)] for a value of
    [errData.error], [None] being [undefined]. *)
Definition thrown_message (status : Z) (v : option json) : Message :=
  match v with
  | None | Some JNull => RequestFailed status
  | Some (JStr s) => Said s
  | Some other => Converted other
  end.

(** From the end of the [fetch] to the arguments of [setResults] and
    [setError]; reading a property of [null] throws. *)
Definition settle (f : Fetched) : option json * option Message :=
  match f with
  | Failed (Some message) => (None, Some message)
  | Failed None => (None, Some (Said (js "Something went wrong.")))
  | Answered status data =>
      if ok status then
        match data with
        | Some JNull | None => (None, Some PlatformText)
        | Some d =>
            (Some (match optional_member d (js "results") with
                   | None | Some JNull => JArr []
                   | Some v => v
                   end), None)
        end
      else
        match default (JObj []) data with
        | JNull => (None, Some PlatformText)
        | errData =>
            (None, Some (thrown_message status (optional_member errData (js "error"))))
        end
  end.

(** [handleSearch(searchPrompt)], [None] standing for the default
    argument: the state once the search is over and the request bodies
    sent. *)
Definition handleSearch (searchPrompt : option jsstring)
    (fetch : jsstring -> Fetched) (st : State) : State * list jsstring :=
  match trim (default (prompt st) searchPrompt) with
  | [] => (st, [])
  | trimmed =>
      let '(rs, err) := settle (fetch (request_body trimmed)) in
      ({| prompt := prompt st; loading := false; results := rs;
          error := err; hasSearched := true |},
       [request_body trimmed])
  end.

End Page.

(** ** The page in front of the handler *)

(** The JSON value of a result as [res.json()] gives it back; defined
    for a reason that is a string. *)
Definition result_json (r : SearchResult) : option json :=
  match reason r with
  | Some (JStr why) =>
      Some (JObj [(js "id", JNum (id (item r)));
                  (js "title", JStr (title (item r)));
                  (js "location", JStr (location (item r)));
                  (js "price", JNum (price (item r)));
                  (js "tags", JArr (map JStr (tags (item r))));
                  (js "reason", JStr why)])
  | _ => None
  end.

(** What the page gets for a response of the handler: its status and
    the JSON value of its body.  Not defined for the one error text whose
    wording the engine chooses. *)
Definition wire (resp : Response) : option Page.Fetched :=
  match payload resp with
  | Results results =>
      match mapM result_json results with
      | Some values =>
          Some (Page.Answered (status resp)
                  (Some (JObj [(js "results", JArr values)])))
      | None => None
      end
  | Error (Text message) =>
      Some (Page.Answered (status resp)
              (Some (JObj [(js "error", JStr message)])))
  | Error EngineMessage => None
  end.

(** * Properties *)

(** Case analysis along the control flow of [POST]: rate limited,
    invalid body, gateway failure, and the outcome of the join. *)
Ltac post_cases generateContent :=
  unfold POST;
  destruct (isRateLimited _ _ _) as [[|] ?];
  [ | destruct (RequestSchema_safeParse _);
      [ | destruct (generateContent _);
          [ | cbn zeta; destruct (assemble _) eqn:? ] ] ].

(** ** The JSON reader on examples *)

Example parse_number_examples :
  parse_number (js "1") = Some (num 1)
  /\ parse_number (js "150") = parse_number (js "1.5e2")
  /\ parse_number (js "1e400") = Some (S754_infinity false)
  /\ parse_number (js "-0") = Some (S754_zero true)
  /\ parse_number (js "9007199254740993") = Some (num 9007199254740992)
  /\ map parse_number [js "01"; js "1."; js "-"; js ".5"; js "1e"; js "+1"]
     = [None; None; None; None; None; None].
Proof. repeat split; vm_compute; reflexivity. Qed.

Example JSON_parse_examples :
  JSON_parse (jsq " [ 1 , 'ab' , true , null ] ")
  = Some (JArr [JNum (num 1); JStr (js "ab"); JBool true; JNull])
  /\ JSON_parse (jsq "{'a':1,'b':[],'a':2}")
     = Some (JObj [(js "a", JNum (num 2)); (js "b", JArr [])])
  /\ map JSON_parse
       [jsq ""; jsq "[1,]"; jsq "{'a':1,}"; jsq "[1 2]"; jsq "{'a'}";
        jsq "[}"; jsq "nul"; jsq "'a' 1"; jsq "{a:1}"]
     = [None; None; None; None; None; None; None; None; None].
Proof. repeat split; vm_compute; reflexivity. Qed.

(** Array-index keys come first and in ascending order, whatever their
    place in the text. *)
Example Object_values_order :
  option_map Object_values (JSON_parse (jsq "{'b':true,'10':[],'9':null,'01':'x'}"))
  = Some (Some [JNull; JArr []; JBool true; JStr (js "x")]).
Proof. vm_compute. reflexivity. Qed.

(** ** The handler on the examples of the specification *)

Example end_to_end_beach (now : Z) :
  POST (fun _ => inr (Some (jsq "[{'id':4,'reason':'matches beach and budget'}]")))
       now ∅ beach_request
  = {| response :=
         {| status := 200;
            payload := Results
              [ {| item := {| id := num 4; title := js "Surf & Chill Retreat";
                              location := js "Arugam Bay"; price := num 80;
                              tags := [js "beach"; js "surfing"; js "young-vibe"] |};
                   reason := Some (JStr (js "matches beach and budget")) |} ] |};
       limiter := {[ js "unknown" := {| count := 1; windowStart := now |} ]};
       gateway_calls := [js "a chilled beach weekend under $100"] |}.
Proof. reflexivity. Qed.

Example end_to_end_empty (now : Z) :
  response (POST (fun _ => inr (Some (jsq "[]"))) now ∅ beach_request)
  = {| status := 200; payload := Results [] |}
  /\ response (POST (fun _ => inr None) now ∅ beach_request)
     = {| status := 200; payload := Results [] |}.
Proof. split; reflexivity. Qed.

Example client_ip_examples :
  client_ip {| x_forwarded_for := Some (js " 203.0.113.7 , 10.0.0.1");
               x_real_ip := Some (js "10.0.0.2"); body := [] |}
  = js "203.0.113.7"
  /\ client_ip {| x_forwarded_for := None; x_real_ip := Some (js "10.0.0.2");
                  body := [] |} = js "10.0.0.2"
  /\ client_ip {| x_forwarded_for := None; x_real_ip := None; body := [] |}
     = js "unknown".
Proof. repeat split; reflexivity. Qed.

(** ** Numbers and the whitelist *)

Lemma number_eqb_finite s m e x :
  number_eqb (S754_finite s m e) x = true -> x = S754_finite s m e.
Proof.
  unfold number_eqb, SFeqb, SFcompare.
  destruct x as [s'|s'| |s' m' e']; destruct s; try destruct s'; try discriminate.
  all: destruct (Z.compare e e') eqn:He; try discriminate.
  all: change (PosDef.Pos.compare_cont Eq m m') with (Pos.compare m m').
  all: destruct (Pos.compare m m') eqn:Hm; try discriminate.
  all: intros _; apply Z.compare_eq in He; apply Pos.compare_eq in Hm.
  all: now subst.
Qed.

Lemma same_value_zero_finite y x :
  is_finite_nonzero y -> same_value_zero y x = true -> x = y.
Proof.
  destruct y as [ | | |s m e]; try contradiction.
  intros _. unfold same_value_zero. apply number_eqb_finite.
Qed.

Lemma VALID_IDS_finite : Forall is_finite_nonzero VALID_IDS.
Proof. vm_compute. repeat constructor. Qed.

Lemma VALID_IDS_inventory it : In it INVENTORY -> In (id it) VALID_IDS.
Proof. intros H. unfold VALID_IDS. now apply in_map. Qed.

Lemma includes_In v :
  includes VALID_IDS v = true -> exists x, v = Some (JNum x) /\ In x VALID_IDS.
Proof.
  destruct v as [[ | |x| | | ]|]; try discriminate.
  cbn [includes]. intros H. apply existsb_exists in H as (y & Hy & Heq).
  exists x. split; [reflexivity|].
  pose proof VALID_IDS_finite as HF. rewrite List.Forall_forall in HF.
  rewrite (same_value_zero_finite y x (HF y Hy) Heq). exact Hy.
Qed.

(** ** What every element of [aiMatches] looks like *)

Lemma lenient_keep_spec m :
  lenient_keep m = true -> whitelisted m /\ has_string_reason m.
Proof.
  unfold lenient_keep. intros H. apply andb_prop in H as [Hid Hr].
  split.
  - apply includes_In in Hid. exact Hid.
  - unfold has_string_reason.
    destruct (optional_member m (js "reason")) as [[ | | |r| | ]|];
      try discriminate.
    now exists r.
Qed.

Lemma id_schema_Some v x :
  id_schema v = Some x -> v = Some (JNum x) /\ In x VALID_IDS.
Proof.
  unfold id_schema. destruct v as [[ | |y| | | ]|]; try discriminate.
  destruct (Number_isInteger y && includes VALID_IDS (Some (JNum y))) eqn:H.
  - apply andb_prop in H as [_ H]. apply includes_In in H as (z & Hz & Hin).
    destruct y; intros [= <-]; injection Hz as <-; now split.
  - destruct y; discriminate.
Qed.

Lemma reason_schema_Some v r :
  reason_schema v = Some r -> v = Some (JStr r) /\ r <> [].
Proof.
  unfold reason_schema. destruct v as [[ | | |s| | ]|]; try discriminate.
  destruct s; cbn; [discriminate|]. intros [= <-]. now split.
Qed.

Lemma match_schema_Some v o :
  match_schema v = Some o ->
  exists x r, o = JObj [(js "id", JNum x); (js "reason", JStr r)]
              /\ optional_member v (js "id") = Some (JNum x)
              /\ optional_member v (js "reason") = Some (JStr r)
              /\ In x VALID_IDS /\ r <> [].
Proof.
  unfold match_schema. destruct v as [ | | | | |props]; try discriminate.
  destruct (id_schema _) as [x|] eqn:Hid; [|discriminate].
  destruct (reason_schema _) as [r|] eqn:Hr; [|discriminate].
  intros [= <-]. apply id_schema_Some in Hid as [Hid Hin].
  apply reason_schema_Some in Hr as [Hr Hne].
  exists x, r. cbn [optional_member]. auto.
Qed.

Lemma strict_output_whitelisted x r :
  In x VALID_IDS ->
  whitelisted (JObj [(js "id", JNum x); (js "reason", JStr r)])
  /\ has_string_reason (JObj [(js "id", JNum x); (js "reason", JStr r)]).
Proof.
  intros Hin. split.
  - exists x. split; [reflexivity|exact Hin].
  - exists r. reflexivity.
Qed.

Lemma validate_candidate_shape candidate :
  Forall (fun m => whitelisted m /\ has_string_reason m)
         (validate_candidate candidate).
Proof.
  unfold validate_candidate, AiMatchSchema_safeParse.
  destruct (mapM match_schema candidate) as [data|] eqn:Hstrict.
  - apply mapM_Some in Hstrict.
    induction Hstrict as [|v o vs os Hv _ IH]; constructor; [|exact IH].
    apply match_schema_Some in Hv as (x & r & -> & _ & _ & Hin & _).
    now apply strict_output_whitelisted.
  - apply List.Forall_forall. intros m Hm.
    apply filter_In in Hm as [_ Hm]. now apply lenient_keep_spec.
Qed.

Lemma sanitize_shape rawContent :
  Forall (fun m => whitelisted m /\ has_string_reason m) (sanitize rawContent).
Proof.
  unfold sanitize, sanitize_try, sanitize_value.
  destruct (JSON_parse rawContent) as [v|]; [|constructor].
  destruct (candidate_of v) as [c|]; [|constructor].
  apply validate_candidate_shape.
Qed.

(** ** The join with the inventory *)

Lemma assemble_omap aiMatches results :
  assemble aiMatches = Some results -> results = omap joined aiMatches.
Proof.
  unfold assemble.
  destruct (mapM join_match aiMatches) as [js0|] eqn:HM; [|discriminate].
  intros [= <-]. apply mapM_Some in HM.
  induction HM as [|m o ms os Hm _ IH]; [reflexivity|].
  cbn [omap list_omap]. unfold joined at 1. rewrite Hm.
  destruct o; cbn; now rewrite IH.
Qed.

Lemma joined_Some m r :
  joined m = Some r ->
  In (item r) INVENTORY
  /\ strict_equals (id (item r)) (optional_member m (js "id")) = true
  /\ reason r = optional_member m (js "reason").
Proof.
  unfold joined, join_match.
  destruct m; try discriminate;
    match goal with
    | |- context [List.find ?f INVENTORY] =>
        destruct (List.find f INVENTORY) as [it|] eqn:Hf; [|discriminate]
    end;
    intros [= <-]; apply find_some in Hf as [Hin Heq]; cbn [item reason]; auto.
Qed.

Lemma omap_joined_ids aiMatches :
  Forall (fun r => In (id (item r)) VALID_IDS) (omap joined aiMatches).
Proof.
  apply List.Forall_forall. intros r Hr.
  apply list_elem_of_In, list_elem_of_omap in Hr as (m & _ & Hm).
  apply joined_Some in Hm as (Hin & _). now apply VALID_IDS_inventory.
Qed.

Lemma assemble_ids aiMatches :
  Forall (fun r => In (id (item r)) VALID_IDS) (default [] (assemble aiMatches)).
Proof.
  destruct (assemble aiMatches) as [rs|] eqn:HA; [|constructor].
  apply assemble_omap in HA as ->. apply omap_joined_ids.
Qed.

(** The join never throws on matches that carry a whitelisted id. *)
Lemma assemble_total aiMatches :
  Forall whitelisted aiMatches -> is_Some (assemble aiMatches).
Proof.
  intros HF. unfold assemble.
  assert (is_Some (mapM join_match aiMatches)) as [js0 ->]; [|eauto].
  induction HF as [|m ms Hm _ IH]; [now eexists|].
  destruct IH as [k Hk]. cbn [mapM]. rewrite Hk.
  destruct Hm as (x & Hx & _).
  destruct m; try discriminate Hx; cbn; eauto.
Qed.

Lemma POST_result_ids (generateContent : Gateway) (now : Z)
    (ipRequestMap : gmap jsstring Entry) (request : Request) :
  Forall (fun x => In x VALID_IDS)
    (result_ids (response (POST generateContent now ipRequestMap request))).
Proof.
  post_cases generateContent; try constructor.
  apply (Forall_map (fun r => id (item r)) (fun x => In x VALID_IDS)).
  match goal with
  | H : assemble ?ms = Some _ |- _ =>
      pose proof (assemble_ids ms) as HF; now rewrite H in HF
  end.
Qed.

(** Every reason the handler emits is the string its match carried. *)
Lemma POST_reasons_are_strings (generateContent : Gateway) (now : Z)
    (ipRequestMap : gmap jsstring Entry) (request : Request)
    (results : list SearchResult) :
  payload (response (POST generateContent now ipRequestMap request))
  = Results results ->
  Forall (fun r => exists s, reason r = Some (JStr s)) results.
Proof.
  unfold POST.
  destruct (isRateLimited _ _ _) as [[|] ?]; [discriminate|].
  destruct (RequestSchema_safeParse _); [discriminate|].
  destruct (generateContent _) as [|text]; [discriminate|].
  cbn zeta. destruct (assemble _) as [rs|] eqn:HA; [|discriminate].
  intros [= <-]. apply assemble_omap in HA as ->.
  apply List.Forall_forall. intros r Hr.
  apply list_elem_of_In, list_elem_of_omap in Hr as (m & Hm & Hj).
  apply joined_Some in Hj as (_ & _ & ->).
  pose proof (sanitize_shape (default (js "[]") text)) as HF.
  rewrite List.Forall_forall in HF.
  apply list_elem_of_In in Hm. now destruct (HF m Hm) as [_ Hs].
Qed.

(** C1. Whatever the model's raw text, every element of the match
    sequence has an id in the whitelist derived from the inventory,
    which is 1 to 5; the join keeps only results whose id is an
    inventory id, whatever matches it is given; and so every result of
    every response of the handler has an id in the whitelist. *)
Theorem only_inventory_ids_surface :
  VALID_IDS = map num [1; 2; 3; 4; 5]
  /\ (forall rawContent, Forall whitelisted (sanitize rawContent))
  /\ (forall aiMatches,
        Forall (fun r => In (id (item r)) VALID_IDS)
               (default [] (assemble aiMatches)))
  /\ (forall generateContent now ipRequestMap request,
        Forall (fun x => In x VALID_IDS)
          (result_ids (response (POST generateContent now ipRequestMap request)))).
Proof.
  split; [reflexivity|]. split; [|split].
  - intros raw. eapply Forall_impl; [apply sanitize_shape|].
    intros m [H _]. exact H.
  - apply assemble_ids.
  - apply POST_result_ids.
Qed.

(** ** Reasons *)

(** The strict schema only lets non-empty reasons through. *)
Lemma strict_reasons_nonempty candidate data :
  AiMatchSchema_safeParse candidate = Some data ->
  Forall (fun m => exists r, optional_member m (js "reason") = Some (JStr r)
                             /\ r <> []) data.
Proof.
  unfold AiMatchSchema_safeParse. intros HM. apply mapM_Some in HM.
  induction HM as [|v o vs os Hv _ IH]; constructor; [|exact IH].
  apply match_schema_Some in Hv as (x & r & -> & _ & _ & _ & Hne).
  exists r. now split.
Qed.

(** C2. On the raw text [[{'id':1,'reason':''}]] (apostrophes standing
    for quotation marks, as in [jsq]) the strict schema rejects the list
    because of the empty reason, the fallback filter then keeps that
    very element, and the handler answers 200 with a result whose reason
    is the empty string. *)
Theorem empty_reason_reaches_client :
  let rawContent := jsq "[{'id':1,'reason':''}]" in
  let element := JObj [(js "id", JNum (num 1)); (js "reason", JStr [])] in
  JSON_parse rawContent = Some (JArr [element])
  /\ AiMatchSchema_safeParse [element] = None
  /\ sanitize rawContent = [element]
  /\ response (POST (fun _ => inr (Some rawContent)) 0 ∅ beach_request)
     = {| status := 200;
          payload := Results
            [ {| item := {| id := num 1; title := js "High-Altitude Tea Trails";
                            location := js "Nuwara Eliya"; price := num 120;
                            tags := [js "cold"; js "nature"; js "hiking"] |};
                 reason := Some (JStr []) |} ] |}.
Proof. repeat split; vm_compute; reflexivity. Qed.

(** ** The fallback on a partly malformed list *)

(** C3. On the raw text
    [[{'id':1,'reason':'x'},{'id':99,'reason':'y'},{'id':'bad'}]]
    (apostrophes standing for quotation marks) the text parses to a
    three-element array, the strict schema fails on it, the fallback
    filter keeps the first element and drops the other two, and the
    match sequence is exactly that first element. *)
Theorem partial_failure_keeps_valid_element :
  let rawContent :=
    jsq "[{'id':1,'reason':'x'},{'id':99,'reason':'y'},{'id':'bad'}]" in
  let first := JObj [(js "id", JNum (num 1)); (js "reason", JStr (js "x"))] in
  let second := JObj [(js "id", JNum (num 99)); (js "reason", JStr (js "y"))] in
  let third := JObj [(js "id", JStr (js "bad"))] in
  JSON_parse rawContent = Some (JArr [first; second; third])
  /\ AiMatchSchema_safeParse [first; second; third] = None
  /\ map lenient_keep [first; second; third] = [true; false; false]
  /\ sanitize rawContent = [first].
Proof. repeat split; vm_compute; reflexivity. Qed.

(** ** The rate limiter *)

Section Limiter.

Variable ip : jsstring.

Lemma isRateLimited_fresh (now : Z) (m : gmap jsstring Entry) :
  m !! ip = None ->
  isRateLimited ip now m
  = (false, <[ip := {| count := 1; windowStart := now |}]> m).
Proof. intros H. unfold isRateLimited. now rewrite H. Qed.

Lemma isRateLimited_expired (now : Z) (m : gmap jsstring Entry) (entry : Entry) :
  m !! ip = Some entry ->
  RATE_WINDOW_MS < now - windowStart entry ->
  isRateLimited ip now m
  = (false, <[ip := {| count := 1; windowStart := now |}]> m).
Proof.
  intros H Hlt. unfold isRateLimited. rewrite H.
  destruct (Z.gtb_spec (now - windowStart entry) RATE_WINDOW_MS);
    [reflexivity|lia].
Qed.

Lemma isRateLimited_counted (now : Z) (m : gmap jsstring Entry) (entry : Entry) :
  m !! ip = Some entry ->
  now - windowStart entry <= RATE_WINDOW_MS ->
  count entry < RATE_LIMIT ->
  isRateLimited ip now m
  = (false, <[ip := {| count := count entry + 1;
                       windowStart := windowStart entry |}]> m).
Proof.
  intros H Hle Hc. unfold isRateLimited. rewrite H.
  destruct (Z.gtb_spec (now - windowStart entry) RATE_WINDOW_MS); [lia|].
  destruct (Z.geb_spec (count entry) RATE_LIMIT); [lia|reflexivity].
Qed.

Lemma isRateLimited_rejected (now : Z) (m : gmap jsstring Entry) (entry : Entry) :
  m !! ip = Some entry ->
  now - windowStart entry <= RATE_WINDOW_MS ->
  RATE_LIMIT <= count entry ->
  isRateLimited ip now m = (true, m).
Proof.
  intros H Hle Hc. unfold isRateLimited. rewrite H.
  destruct (Z.gtb_spec (now - windowStart entry) RATE_WINDOW_MS); [lia|].
  destruct (Z.geb_spec (count entry) RATE_LIMIT); [reflexivity|lia].
Qed.

(** A call answers [true] only in the case of [isRateLimited_rejected]. *)
Lemma isRateLimited_true_inv (now : Z) (m m' : gmap jsstring Entry) :
  isRateLimited ip now m = (true, m') ->
  m' = m
  /\ exists entry, m !! ip = Some entry
       /\ now - windowStart entry <= RATE_WINDOW_MS
       /\ RATE_LIMIT <= count entry.
Proof.
  unfold isRateLimited. destruct (m !! ip) as [entry|] eqn:H; [|discriminate].
  destruct (Z.gtb_spec (now - windowStart entry) RATE_WINDOW_MS);
    [discriminate|].
  destruct (Z.geb_spec (count entry) RATE_LIMIT); [|discriminate].
  intros [= <-]. split; [reflexivity|]. exists entry. repeat split; lia.
Qed.

(** A call touches no entry but the caller's. *)
Lemma isRateLimited_frame (now : Z) (m : gmap jsstring Entry) (other : jsstring) :
  other <> ip -> snd (isRateLimited ip now m) !! other = m !! other.
Proof.
  intros Hne. unfold isRateLimited.
  destruct (m !! ip) as [entry|]; [|now apply lookup_insert_ne].
  destruct (now - windowStart entry >? RATE_WINDOW_MS);
    [now apply lookup_insert_ne|].
  destruct (count entry >=? RATE_LIMIT); [reflexivity|].
  now apply lookup_insert_ne.
Qed.

(** Within the window opened at [start], calls are admitted and counted
    as long as the count stays within the limit. *)
Lemma calls_in_window (start : Z) (times : list Z) (m : gmap jsstring Entry)
    (c : Z) :
  m !! ip = Some {| count := c; windowStart := start |} ->
  1 <= c -> c + Z.of_nat (length times) <= RATE_LIMIT ->
  Forall (fun now => now - start <= RATE_WINDOW_MS) times ->
  exists m', calls ip times m = (map (fun _ => false) times, m')
    /\ m' !! ip = Some {| count := c + Z.of_nat (length times);
                          windowStart := start |}.
Proof.
  revert m c. induction times as [|now rest IH]; intros m c Hm Hc Hlen HF.
  - exists m. cbn. split; [reflexivity|]. now rewrite Z.add_0_r.
  - inversion HF as [|? ? Hnow Hrest]; subst.
    cbn [calls]. cbn [length] in Hlen.
    rewrite (isRateLimited_counted now m _ Hm); cbn [count windowStart];
      [|exact Hnow|lia].
    destruct (IH (<[ip := {| count := c + 1; windowStart := start |}]> m) (c + 1))
      as (m' & Hcalls & Hm'); [apply lookup_insert_eq|lia|lia|exact Hrest|].
    rewrite Hcalls. exists m'. split; [reflexivity|].
    rewrite Hm'. do 2 f_equal. cbn [length]. lia.
Qed.

(** C4. For any client without an entry: a first call at [t1] and four
    more calls at times within 60 seconds of [t1] are all admitted
    ([isRateLimited] answers [false]); a sixth call within the window is
    rejected; and a call at a time [t7] more than 60 seconds after [t1]
    is admitted and leaves the entry with count 1 and window start
    [t7]. *)
Theorem five_per_window (m : gmap jsstring Entry) (t1 t2 t3 t4 t5 t6 t7 : Z) :
  m !! ip = None ->
  Forall (fun now => now - t1 <= 60000) [t2; t3; t4; t5; t6] ->
  60000 < t7 - t1 ->
  exists m6,
    calls ip [t1; t2; t3; t4; t5; t6] m
    = ([false; false; false; false; false; true], m6)
    /\ m6 !! ip = Some {| count := 5; windowStart := t1 |}
    /\ exists m7,
         isRateLimited ip t7 m6 = (false, m7)
         /\ m7 !! ip = Some {| count := 1; windowStart := t7 |}.
Proof.
  intros Hnone HF Hlate.
  assert (Forall (fun now => now - t1 <= RATE_WINDOW_MS) [t2; t3; t4; t5]
          /\ t6 - t1 <= RATE_WINDOW_MS) as [HF4 H6].
  { rewrite !List.Forall_forall in *. split.
    - intros now Hnow. apply HF. cbn in *. tauto.
    - apply HF. cbn. tauto. }
  cbn [calls]. rewrite (isRateLimited_fresh t1 m Hnone).
  destruct (calls_in_window t1 [t2; t3; t4; t5]
              (<[ip := {| count := 1; windowStart := t1 |}]> m) 1)
    as (m5 & Hcalls & Hm5);
    [apply lookup_insert_eq|lia|cbn; unfold RATE_LIMIT; lia|exact HF4|].
  cbn [calls map length] in Hcalls, Hm5.
  destruct (isRateLimited ip t2 _) as [a2 m2].
  destruct (isRateLimited ip t3 _) as [a3 m3].
  destruct (isRateLimited ip t4 _) as [a4 m4].
  destruct (isRateLimited ip t5 _) as [a5 m5'].
  injection Hcalls as -> -> -> -> ->.
  change (1 + Z.of_nat 4) with 5 in Hm5.
  rewrite (isRateLimited_rejected t6 m5 _ Hm5);
    [|exact H6|cbn; unfold RATE_LIMIT; lia].
  exists m5. split; [reflexivity|]. split; [exact Hm5|].
  exists (<[ip := {| count := 1; windowStart := t7 |}]> m5). split.
  - apply (isRateLimited_expired t7 m5 _ Hm5). cbn. unfold RATE_WINDOW_MS. lia.
  - apply lookup_insert_eq.
Qed.

End Limiter.

Lemma five_per_window_witness :
  exists m6,
    calls (js "203.0.113.7") [0; 1000; 2000; 3000; 60000; 60000] ∅
    = ([false; false; false; false; false; true], m6)
    /\ m6 !! js "203.0.113.7" = Some {| count := 5; windowStart := 0 |}
    /\ exists m7,
         isRateLimited (js "203.0.113.7") 60001 m6 = (false, m7)
         /\ m7 !! js "203.0.113.7" = Some {| count := 1; windowStart := 60001 |}.
Proof.
  apply (five_per_window (js "203.0.113.7") ∅ 0 1000 2000 3000 60000 60000 60001).
  - reflexivity.
  - repeat constructor; lia.
  - lia.
Defined.

(** ** The handler, case by case *)

Section Handler.

Variable generateContent : Gateway.
Variable now : Z.
Variable m : gmap jsstring Entry.
Variable request : Request.

Lemma POST_limiter :
  limiter (POST generateContent now m request)
  = snd (isRateLimited (client_ip request) now m).
Proof. post_cases generateContent; reflexivity. Qed.

Lemma POST_status_429 :
  status (response (POST generateContent now m request)) = 429
  <-> fst (isRateLimited (client_ip request) now m) = true.
Proof. post_cases generateContent; easy. Qed.

Lemma POST_status_400 :
  status (response (POST generateContent now m request)) = 400 ->
  fst (isRateLimited (client_ip request) now m) = false
  /\ gateway_calls (POST generateContent now m request) = [].
Proof. post_cases generateContent; easy. Qed.

Lemma POST_limited (m' : gmap jsstring Entry) :
  isRateLimited (client_ip request) now m = (true, m') ->
  POST generateContent now m request
  = {| response := too_many_requests; limiter := m'; gateway_calls := [] |}.
Proof. intros H. unfold POST. now rewrite H. Qed.

Lemma POST_invalid (message : jsstring) (more : list jsstring) :
  fst (isRateLimited (client_ip request) now m) = false ->
  RequestSchema_safeParse (request_json request) = inl (message :: more) ->
  response (POST generateContent now m request)
  = {| status := 400; payload := Error (Text message) |}
  /\ gateway_calls (POST generateContent now m request) = [].
Proof.
  intros Hlim Hbad. unfold POST.
  destruct (isRateLimited _ _ _) as [limited m']. cbn in Hlim. subst limited.
  rewrite Hbad. now split.
Qed.

Lemma POST_answers_200 (prompt : jsstring) (text : option jsstring) :
  fst (isRateLimited (client_ip request) now m) = false ->
  RequestSchema_safeParse (request_json request) = inr prompt ->
  generateContent prompt = inr text ->
  response (POST generateContent now m request)
  = {| status := 200;
       payload := Results (omap joined (sanitize (default (js "[]") text))) |}
  /\ gateway_calls (POST generateContent now m request) = [prompt].
Proof.
  intros Hlim Hok Hgen. unfold POST.
  destruct (isRateLimited _ _ _) as [limited m']. cbn in Hlim. subst limited.
  rewrite Hok, Hgen.
  destruct (assemble_total (sanitize (default (js "[]") text))) as [rs Hrs].
  { eapply Forall_impl; [apply sanitize_shape|]. now intros ? [? _]. }
  cbn zeta. rewrite Hrs. apply assemble_omap in Hrs as ->. now split.
Qed.

End Handler.

(** C5. When the client's entry is within its window and its count has
    reached the limit, [isRateLimited] answers [true] and the map after
    the call is the map before it, so the entry of that client and of
    every other client is unchanged; the handler then answers 429,
    leaves the map as it was and makes no gateway call. *)
Theorem rejection_leaves_limiter_unchanged
    (ip : jsstring) (now : Z) (m : gmap jsstring Entry) (entry : Entry) :
  m !! ip = Some entry ->
  now - windowStart entry <= 60000 ->
  5 <= count entry ->
  isRateLimited ip now m = (true, m)
  /\ forall (generateContent : Gateway) (request : Request),
       client_ip request = ip ->
       POST generateContent now m request
       = {| response := too_many_requests; limiter := m; gateway_calls := [] |}.
Proof.
  intros Hm Hw Hc.
  assert (isRateLimited ip now m = (true, m)) as Hrej
    by now apply (isRateLimited_rejected ip now m entry).
  split; [exact Hrej|].
  intros g request <-. now apply POST_limited.
Qed.

Lemma rejection_leaves_limiter_unchanged_witness :
  let m : gmap jsstring Entry :=
    {[ js "unknown" := {| count := 5; windowStart := 1000 |} ]} in
  isRateLimited (js "unknown") 61000 m = (true, m)
  /\ forall (generateContent : Gateway) (request : Request),
       client_ip request = js "unknown" ->
       POST generateContent 61000 m request
       = {| response := too_many_requests; limiter := m; gateway_calls := [] |}.
Proof.
  apply (rejection_leaves_limiter_unchanged (js "unknown") 61000
           {[ js "unknown" := {| count := 5; windowStart := 1000 |} ]}
           {| count := 5; windowStart := 1000 |}).
  - apply lookup_singleton_eq.
  - cbn. lia.
  - cbn. lia.
Defined.

(** ** The request validator *)

(** C6. For a body that is an object: a string prompt of 1 to 500 code
    units is accepted; the empty prompt, a prompt of more than 500 code
    units and a missing prompt are rejected, each with its own message;
    and whenever validation fails the handler (if the request was not
    rate limited) answers 400 with the first message and makes no
    gateway call. *)
Theorem request_validation (props : list (jsstring * json)) :
  let verdict := RequestSchema_safeParse (JObj props) in
  (forall s, get_prop props (js "prompt") = Some (JStr s) ->
     ((1 <= length s <= 500)%nat -> verdict = inr s)
     /\ (length s = 0%nat -> verdict = inl [js "prompt cannot be empty"])
     /\ ((500 < length s)%nat ->
         verdict = inl [js "prompt must be 500 characters or fewer"]))
  /\ (get_prop props (js "prompt") = None ->
      verdict = inl [js "prompt is required"])
  /\ (forall (generateContent : Gateway) (now : Z) (m : gmap jsstring Entry)
             (request : Request) (message : jsstring) (more : list jsstring),
        request_json request = JObj props ->
        fst (isRateLimited (client_ip request) now m) = false ->
        verdict = inl (message :: more) ->
        response (POST generateContent now m request)
        = {| status := 400; payload := Error (Text message) |}
        /\ gateway_calls (POST generateContent now m request) = []).
Proof.
  cbn zeta. split; [|split].
  - intros s Hs. unfold RequestSchema_safeParse, prompt_schema. rewrite Hs.
    split; [|split].
    + intros [H1 H500].
      destruct (Nat.ltb_spec (length s) 1); [lia|].
      destruct (Nat.ltb_spec 500 (length s)); [lia|]. reflexivity.
    + intros H0.
      destruct (Nat.ltb_spec (length s) 1); [|lia].
      destruct (Nat.ltb_spec 500 (length s)); [lia|]. reflexivity.
    + intros H500.
      destruct (Nat.ltb_spec (length s) 1); [lia|].
      destruct (Nat.ltb_spec 500 (length s)); [|lia]. reflexivity.
  - intros Hnone. unfold RequestSchema_safeParse, prompt_schema.
    now rewrite Hnone.
  - intros g now m request message more Hbody Hlim Hbad.
    apply POST_invalid with (more := more); [exact Hlim|].
    now rewrite Hbody.
Qed.

Lemma request_validation_witness :
  RequestSchema_safeParse (JObj [(js "prompt", JStr (js "beach"))])
  = inr (js "beach")
  /\ RequestSchema_safeParse (JObj []) = inl [js "prompt is required"]
  /\ response (POST (fun _ => inr None) 0 ∅
                 {| x_forwarded_for := None; x_real_ip := None;
                    body := jsq "{'prompt':''}" |})
     = {| status := 400; payload := Error (Text (js "prompt cannot be empty")) |}.
Proof.
  split; [|split].
  - destruct (request_validation [(js "prompt", JStr (js "beach"))])
      as (Hstring & _ & _).
    apply (Hstring (js "beach")); [reflexivity|cbn; lia].
  - destruct (request_validation []) as (_ & Hmissing & _).
    apply Hmissing. reflexivity.
  - destruct (request_validation [(js "prompt", JStr [])])
      as (Hstring & _ & Hpost).
    apply Hpost with (more := []); [reflexivity|reflexivity|].
    apply (Hstring []); reflexivity.
Defined.

(** ** Totality of step 4 *)

(** C7. Step 4 yields a match sequence for every raw text: when the
    body of the inner [try] throws, and in particular when the text is
    not JSON, the sequence is empty; the text [not json] gives the empty
    sequence; the join never throws on the sequence; and so a request
    that reaches the gateway and gets any text back is answered 200. *)
Theorem sanitize_total (rawContent : jsstring) :
  (sanitize_try rawContent = None -> sanitize rawContent = [])
  /\ (JSON_parse rawContent = None -> sanitize rawContent = [])
  /\ is_Some (assemble (sanitize rawContent))
  /\ (JSON_parse (js "not json") = None /\ sanitize (js "not json") = [])
  /\ (forall (generateContent : Gateway) (now : Z) (m : gmap jsstring Entry)
             (request : Request) (prompt : jsstring),
        fst (isRateLimited (client_ip request) now m) = false ->
        RequestSchema_safeParse (request_json request) = inr prompt ->
        generateContent prompt = inr (Some rawContent) ->
        status (response (POST generateContent now m request)) = 200).
Proof.
  split; [|split; [|split; [|split]]].
  - intros H. unfold sanitize. now rewrite H.
  - intros H. unfold sanitize, sanitize_try. now rewrite H.
  - apply assemble_total. eapply Forall_impl; [apply sanitize_shape|].
    now intros ? [? _].
  - split; vm_compute; reflexivity.
  - intros g now m request prompt Hlim Hok Hgen.
    destruct (POST_answers_200 g now m request prompt (Some rawContent)
                Hlim Hok Hgen) as [-> _].
    reflexivity.
Qed.

Lemma sanitize_total_witness :
  sanitize (jsq "{'id':1,") = []
  /\ status (response (POST (fun _ => inr (Some (jsq "{'id':1,"))) 0 ∅
                         beach_request)) = 200.
Proof.
  destruct (sanitize_total (jsq "{'id':1,")) as (_ & Hparse & _ & _ & Hpost).
  split.
  - apply Hparse. reflexivity.
  - apply Hpost with (prompt := js "a chilled beach weekend under $100");
      reflexivity.
Defined.

(** ** The candidate list *)

Lemma find_first_array (pre post : list json) (elems : list json) :
  Forall (fun v => Array_isArray v = false) pre ->
  List.find Array_isArray (pre ++ JArr elems :: post) = Some (JArr elems).
Proof.
  induction 1 as [|v pre Hv _ IH]; [reflexivity|].
  cbn. now rewrite Hv.
Qed.

Lemma find_no_array (values : list json) :
  Forall (fun v => Array_isArray v = false) values ->
  List.find Array_isArray values = None.
Proof.
  induction 1 as [|v vs Hv _ IH]; [reflexivity|].
  cbn. now rewrite Hv.
Qed.

Lemma find_chars_no_array (s : jsstring) :
  List.find Array_isArray (map (fun c => JStr [c]) s) = None.
Proof. induction s as [|c s IH]; [reflexivity|exact IH]. Qed.

Lemma candidate_of_spec (jsonParsed : json) :
  jsonParsed <> JNull -> candidate_of jsonParsed = Some (candidate_spec jsonParsed).
Proof.
  destruct jsonParsed as [ |b|x|s|elems|props]; intros Hnull;
    try reflexivity; [contradiction|].
  unfold candidate_of, candidate_spec, Object_values.
  now rewrite find_chars_no_array.
Qed.

(** C8. Step 4 validates the candidate list of the specification: for
    every parsed value the match sequence is the validation of
    [candidate_spec], and for every parsed value but [null] the code
    computes exactly that list.  For an object the candidate list is the
    first array among the object's values, whatever precedes it, and the
    empty list when no value is an array; for a number, a string or a
    boolean it is empty; on [null] reading the values throws, and the
    match sequence is empty as for an empty candidate list.  The
    envelope [{'matches':[{'id':2,'reason':'z'}]}] yields the single
    match with id 2 and reason z. *)
Theorem envelope_candidate (jsonParsed : json) :
  default [] (sanitize_value jsonParsed)
  = validate_candidate (candidate_spec jsonParsed)
  /\ (jsonParsed <> JNull ->
      candidate_of jsonParsed = Some (candidate_spec jsonParsed))
  /\ (forall props pre elems post,
        jsonParsed = JObj props ->
        own_values props = pre ++ JArr elems :: post ->
        Forall (fun v => Array_isArray v = false) pre ->
        candidate_of jsonParsed = Some elems)
  /\ (forall props,
        jsonParsed = JObj props ->
        Forall (fun v => Array_isArray v = false) (own_values props) ->
        candidate_of jsonParsed = Some [])
  /\ (Array_isArray jsonParsed = false ->
      (forall props, jsonParsed <> JObj props) ->
      jsonParsed <> JNull ->
      candidate_of jsonParsed = Some [])
  /\ (jsonParsed = JNull ->
      candidate_of jsonParsed = None
      /\ default [] (sanitize_value jsonParsed) = [])
  /\ sanitize (jsq "{'matches':[{'id':2,'reason':'z'}]}")
     = [JObj [(js "id", JNum (num 2)); (js "reason", JStr (js "z"))]].
Proof.
  split; [|split; [|split; [|split; [|split; [|split]]]]].
  - destruct jsonParsed as [ |b|x|s|elems|props] eqn:E; [reflexivity|..];
      unfold sanitize_value; now rewrite candidate_of_spec.
  - apply candidate_of_spec.
  - intros props pre elems post -> Hvalues Hpre.
    rewrite candidate_of_spec by discriminate. unfold candidate_spec.
    now rewrite Hvalues, (find_first_array pre post elems Hpre).
  - intros props -> Hnone.
    rewrite candidate_of_spec by discriminate. unfold candidate_spec.
    now rewrite (find_no_array _ Hnone).
  - intros Harr Hobj Hnull. rewrite (candidate_of_spec _ Hnull).
    destruct jsonParsed; try reflexivity; [discriminate|].
    now destruct (Hobj props).
  - intros ->. split; reflexivity.
  - vm_compute. reflexivity.
Qed.

Lemma envelope_candidate_witness :
  let inner := JObj [(js "id", JNum (num 2)); (js "reason", JStr (js "z"))] in
  let envelope :=
    JObj [(js "note", JStr (js "ok")); (js "matches", JArr [inner]);
          (js "more", JArr [])] in
  candidate_of envelope = Some [inner]
  /\ candidate_of (JStr (js "no array here")) = Some [].
Proof.
  cbn zeta. split.
  - destruct (envelope_candidate
                (JObj [(js "note", JStr (js "ok"));
                       (js "matches",
                        JArr [JObj [(js "id", JNum (num 2));
                                    (js "reason", JStr (js "z"))]]);
                       (js "more", JArr [])]))
      as (_ & _ & Hfirst & _).
    eapply (Hfirst _ [JStr (js "ok")] _ [JArr []]);
      [reflexivity|reflexivity|repeat constructor].
  - destruct (envelope_candidate (JStr (js "no array here")))
      as (_ & _ & _ & _ & Hother & _).
    apply Hother; [reflexivity|discriminate|discriminate].
Defined.

(** ** Order of the results *)

Lemma existsb_find {A} (f : A -> bool) (l : list A) :
  existsb f l = match List.find f l with Some _ => true | None => false end.
Proof.
  induction l as [|a l IH]; [reflexivity|].
  cbn. destruct (f a); [reflexivity|exact IH].
Qed.

Lemma inventory_id_finite (it : InventoryItem) :
  In it INVENTORY -> is_finite_nonzero (id it).
Proof.
  intros Hin. pose proof VALID_IDS_finite as HF.
  rewrite List.Forall_forall in HF. apply HF. now apply VALID_IDS_inventory.
Qed.

Lemma joined_key (m : json) (r : SearchResult) :
  joined m = Some r -> known m = true /\ result_key r = match_key m.
Proof.
  intros Hj. pose proof (joined_Some m r Hj) as (Hin & Heq & Hreason).
  split.
  - unfold known. apply existsb_exists. now exists (item r).
  - unfold result_key, match_key. rewrite Hreason. f_equal.
    unfold strict_equals in Heq.
    destruct (optional_member m (js "id")) as [[ | |y| | | ]|];
      try discriminate.
    pose proof (inventory_id_finite _ Hin) as Hfin.
    destruct (id (item r)) as [ | | |s p e]; try contradiction.
    now rewrite (number_eqb_finite s p e y Heq).
Qed.

Lemma joined_None (m : json) : joined m = None -> known m = false.
Proof.
  unfold joined, join_match, known. rewrite existsb_find.
  destruct m; try reflexivity;
    match goal with
    | |- context [List.find ?f INVENTORY] =>
        destruct (List.find f INVENTORY); [discriminate|reflexivity]
    end.
Qed.

Lemma omap_joined_keys (aiMatches : list json) :
  map result_key (omap joined aiMatches)
  = map match_key (List.filter known aiMatches).
Proof.
  induction aiMatches as [|m ms IH]; [reflexivity|].
  cbn [omap list_omap List.filter].
  destruct (joined m) as [r|] eqn:Hj.
  - apply joined_key in Hj as [-> Hkey]. cbn. now rewrite Hkey, IH.
  - apply joined_None in Hj as ->. exact IH.
Qed.

(** C9. The results are, in order, the matches whose id is an inventory
    id: each result carries the id and the reason of its match, and the
    sequence of results is the sequence of matches with the unknown ones
    removed and nothing moved. *)
Theorem assemble_keeps_order (aiMatches : list json) (results : list SearchResult) :
  assemble aiMatches = Some results ->
  map result_key results = map match_key (List.filter known aiMatches).
Proof.
  intros HA. apply assemble_omap in HA as ->. apply omap_joined_keys.
Qed.

(** Matches for 5, an unknown id and 1: the results are 5 then 1, the
    order of the matches and not that of the catalog. *)
Lemma assemble_keeps_order_witness :
  exists results,
    assemble [pick 5 (js "view"); pick 99 (js "none"); pick 1 (js "hiking")]
    = Some results
    /\ map result_key results
       = [(Some (JNum (num 5)), Some (JStr (js "view")));
          (Some (JNum (num 1)), Some (JStr (js "hiking")))].
Proof.
  eexists. split; [reflexivity|].
  rewrite (assemble_keeps_order
             [pick 5 (js "view"); pick 99 (js "none"); pick 1 (js "hiking")]
             _ eq_refl).
  reflexivity.
Defined.

(** ** Quota and validation *)

(** C10. The map a request leaves is the map after [isRateLimited],
    whatever the body; and a request answered 400 was admitted by the
    limiter, made no gateway call, and left the client's entry counted:
    a fresh entry with count 1 when the client had no entry or its
    window had run out, else the old entry with its count raised by
    one; the other clients' entries are as before. *)
Theorem invalid_request_is_counted (generateContent : Gateway) (now : Z)
    (m : gmap jsstring Entry) (request : Request) :
  let ip := client_ip request in
  let after := limiter (POST generateContent now m request) in
  after = snd (isRateLimited ip now m)
  /\ (status (response (POST generateContent now m request)) = 400 ->
      fst (isRateLimited ip now m) = false
      /\ gateway_calls (POST generateContent now m request) = []
      /\ after !! ip
         = Some (match m !! ip with
                 | Some old =>
                     if now - windowStart old >? 60000
                     then {| count := 1; windowStart := now |}
                     else {| count := count old + 1;
                             windowStart := windowStart old |}
                 | None => {| count := 1; windowStart := now |}
                 end)
      /\ forall other, other <> ip -> after !! other = m !! other).
Proof.
  cbn zeta. split; [apply POST_limiter|].
  intros H400. apply POST_status_400 in H400 as [Hadm Hcalls].
  rewrite POST_limiter. split; [exact Hadm|]. split; [exact Hcalls|]. split.
  - revert Hadm. unfold isRateLimited.
    destruct (m !! client_ip request) as [old|] eqn:Hm;
      [|intros _; apply lookup_insert_eq].
    change RATE_WINDOW_MS with 60000.
    destruct (now - windowStart old >? 60000);
      [intros _; apply lookup_insert_eq|].
    destruct (count old >=? RATE_LIMIT); [discriminate|].
    intros _. apply lookup_insert_eq.
  - intros other Hne. now apply isRateLimited_frame.
Qed.

Lemma invalid_request_is_counted_witness :
  let m : gmap jsstring Entry :=
    {[ js "unknown" := {| count := 2; windowStart := 0 |} ]} in
  let after := limiter (POST (fun _ => inr None) 30000 m empty_request) in
  isRateLimited (js "unknown") 30000 m = (false, after)
  /\ gateway_calls (POST (fun _ => inr None) 30000 m empty_request) = []
  /\ after !! js "unknown" = Some {| count := 3; windowStart := 0 |}.
Proof.
  cbn zeta.
  destruct (invalid_request_is_counted (fun _ => inr None) 30000
              {[ js "unknown" := {| count := 2; windowStart := 0 |} ]}
              empty_request) as [Hafter Hcounted].
  destruct (Hcounted eq_refl) as (Hadm & Hcalls & Hentry & _).
  cbn zeta in *. change (client_ip empty_request) with (js "unknown") in *.
  rewrite lookup_singleton_eq in Hentry.
  split; [|split; [exact Hcalls|exact Hentry]].
  rewrite Hafter. destruct (isRateLimited _ _ _) as [l m']. cbn in Hadm.
  now subst l.
Defined.

(** Five requests without a prompt use up the window: each is answered
    400, and the sixth request, whose body is valid, is answered 429
    without any gateway call. *)
Example five_invalid_requests_exhaust_quota (generateContent : Gateway) :
  map status
      (serve generateContent
         [(0, empty_request); (10000, empty_request); (20000, empty_request);
          (30000, empty_request); (40000, empty_request); (50000, beach_request)]
         ∅)
  = [400; 400; 400; 400; 400; 429].
Proof. vm_compute. reflexivity. Qed.

(** * Further properties *)

(** ** The limiter over runs of requests *)

Section LimiterRuns.

Variable ip : jsstring.

(** The answer and the caller's new entry depend on the caller's entry
    alone. *)
Lemma isRateLimited_local (now : Z) (m1 m2 : gmap jsstring Entry) :
  m1 !! ip = m2 !! ip ->
  fst (isRateLimited ip now m1) = fst (isRateLimited ip now m2)
  /\ snd (isRateLimited ip now m1) !! ip = snd (isRateLimited ip now m2) !! ip.
Proof.
  intros H. unfold isRateLimited. rewrite H.
  destruct (m2 !! ip) as [entry|] eqn:Hm2;
    [|cbn; now rewrite !lookup_insert_eq].
  destruct (now - windowStart entry >? RATE_WINDOW_MS);
    [cbn; now rewrite !lookup_insert_eq|].
  destruct (count entry >=? RATE_LIMIT);
    [cbn; now rewrite Hm2|cbn; now rewrite !lookup_insert_eq].
Qed.

Lemma isRateLimited_dom (now : Z) (m : gmap jsstring Entry) :
  dom (snd (isRateLimited ip now m)) = {[ ip ]} ∪ dom m.
Proof.
  unfold isRateLimited. destruct (m !! ip) as [entry|] eqn:Hm;
    [|apply dom_insert_L].
  destruct (now - windowStart entry >? RATE_WINDOW_MS); [apply dom_insert_L|].
  destruct (count entry >=? RATE_LIMIT); [|apply dom_insert_L].
  cbn [snd]. apply elem_of_dom_2 in Hm. apply set_eq. intros i.
  rewrite elem_of_union, elem_of_singleton. split; [auto|].
  now intros [->|].
Qed.

Lemma isRateLimited_ok (now : Z) (m : gmap jsstring Entry) :
  limiter_ok m -> limiter_ok (snd (isRateLimited ip now m)).
Proof.
  intros Hok. unfold isRateLimited.
  destruct (m !! ip) as [entry|] eqn:Hm.
  - destruct (now - windowStart entry >? RATE_WINDOW_MS).
    + apply map_Forall_insert_2; [cbn; unfold RATE_LIMIT; lia|exact Hok].
    + destruct (Z.geb_spec (count entry) RATE_LIMIT); [exact Hok|].
      apply map_Forall_insert_2; [|exact Hok].
      cbn. pose proof (Hok ip entry Hm) as Hc. cbn in Hc. lia.
  - apply map_Forall_insert_2; [cbn; unfold RATE_LIMIT; lia|exact Hok].
Qed.

(** Once the count has reached the limit, every call within the window
    is rejected and changes nothing. *)
Lemma calls_rejected (times : list Z) (m : gmap jsstring Entry) (entry : Entry) :
  m !! ip = Some entry ->
  RATE_LIMIT <= count entry ->
  Forall (fun now => now - windowStart entry <= RATE_WINDOW_MS) times ->
  calls ip times m = (map (fun _ => true) times, m).
Proof.
  intros Hm Hc HF. induction HF as [|now rest Hnow _ IH]; [reflexivity|].
  cbn [calls]. rewrite (isRateLimited_rejected ip now m entry Hm Hnow Hc).
  now rewrite IH.
Qed.

Lemma calls_app (ts1 ts2 : list Z) (m : gmap jsstring Entry) :
  calls ip (ts1 ++ ts2) m
  = (fst (calls ip ts1 m) ++ fst (calls ip ts2 (snd (calls ip ts1 m))),
     snd (calls ip ts2 (snd (calls ip ts1 m)))).
Proof.
  revert m. induction ts1 as [|now rest IH]; intros m.
  - cbn. now destruct (calls ip ts2 m).
  - cbn [calls app]. destruct (isRateLimited ip now m) as [l m'].
    rewrite IH. destruct (calls ip rest m') as [a1 m1]. cbn.
    now destruct (calls ip ts2 m1).
Qed.

(** A window opened by an admitted first call: up to [RATE_LIMIT - 1]
    further calls within it are admitted. *)
Lemma calls_new_window (start : Z) (times : list Z) (m : gmap jsstring Entry) :
  (m !! ip = None
   \/ exists old, m !! ip = Some old /\ RATE_WINDOW_MS < start - windowStart old) ->
  Z.of_nat (length times) < RATE_LIMIT ->
  Forall (fun now => now - start <= RATE_WINDOW_MS) times ->
  exists m', calls ip (start :: times) m = (map (fun _ => false) (start :: times), m')
    /\ m' !! ip = Some {| count := 1 + Z.of_nat (length times);
                          windowStart := start |}.
Proof.
  intros Hopen Hlen HF.
  assert (isRateLimited ip start m
          = (false, <[ip := {| count := 1; windowStart := start |}]> m)) as H1.
  { destruct Hopen as [Hnone|(old & Hold & Hexp)].
    - now apply isRateLimited_fresh.
    - now apply (isRateLimited_expired ip start m old). }
  cbn [calls]. rewrite H1.
  destruct (calls_in_window ip start times
              (<[ip := {| count := 1; windowStart := start |}]> m) 1)
    as (m' & Hcalls & Hm'); [apply lookup_insert_eq|lia|lia|exact HF|].
  rewrite Hcalls. now exists m'.
Qed.

End LimiterRuns.

Lemma POST_limited_bool (generateContent : Gateway) (now : Z)
    (m : gmap jsstring Entry) (request : Request) :
  (status (response (POST generateContent now m request)) =? 429)
  = fst (isRateLimited (client_ip request) now m).
Proof.
  pose proof (POST_status_429 generateContent now m request) as [H1 H2].
  destruct (fst (isRateLimited (client_ip request) now m)).
  - apply Z.eqb_eq. now apply H2.
  - destruct (Z.eqb_spec (status (response (POST generateContent now m request))) 429)
      as [E|E]; [now apply H1 in E|reflexivity].
Qed.

(** A run of requests of one client answers 429 exactly where
    [isRateLimited] answers [true]. *)
Lemma handle_all_calls (ip : jsstring) (arrivals : list Arrival)
    (m : gmap jsstring Entry) :
  Forall (fun a => client_of a = ip) arrivals ->
  map (fun out => status (response out) =? 429) (handle_all arrivals m)
  = fst (calls ip (map time_of arrivals) m).
Proof.
  intros HF. revert m. induction HF as [|[[g now] request] rest Hip _ IH];
    intros m; [reflexivity|].
  cbn [handle_all map calls]. unfold client_of in Hip. cbn in Hip.
  change (time_of (g, now, request)) with now.
  rewrite POST_limited_bool, POST_limiter, Hip, IH.
  destruct (isRateLimited ip now m) as [l m']. cbn [fst snd].
  now destruct (calls ip (map time_of rest) m').
Qed.

Lemma header_less_unknown (request : Request) :
  header_less request -> client_ip request = js "unknown".
Proof. intros [Hf Hr]. unfold client_ip. now rewrite Hf, Hr. Qed.

Lemma limiter_after_ok (arrivals : list Arrival) (m : gmap jsstring Entry) :
  limiter_ok m -> limiter_ok (limiter_after arrivals m).
Proof.
  revert m. induction arrivals as [|[[g now] request] rest IH]; intros m Hok;
    [exact Hok|].
  cbn [limiter_after]. apply IH. rewrite POST_limiter.
  now apply isRateLimited_ok.
Qed.

(** X1. One client's calls never change what another client gets: the
    answer to a call for [ip2] is the same before and after a call for
    [ip1], and the two calls leave the same map in either order. *)
Theorem limiter_isolates_clients (ip1 ip2 : jsstring) (t1 t2 : Z)
    (m : gmap jsstring Entry) :
  ip1 <> ip2 ->
  fst (isRateLimited ip2 t2 (snd (isRateLimited ip1 t1 m)))
  = fst (isRateLimited ip2 t2 m)
  /\ snd (isRateLimited ip2 t2 (snd (isRateLimited ip1 t1 m)))
     = snd (isRateLimited ip1 t1 (snd (isRateLimited ip2 t2 m))).
Proof.
  intros Hne.
  assert (snd (isRateLimited ip1 t1 m) !! ip2 = m !! ip2) as H12
    by (apply isRateLimited_frame; congruence).
  assert (snd (isRateLimited ip2 t2 m) !! ip1 = m !! ip1) as H21
    by now apply isRateLimited_frame.
  split; [now apply isRateLimited_local|].
  apply map_eq. intros i.
  destruct (decide (i = ip1)) as [->|Hi1]; [|destruct (decide (i = ip2)) as [->|Hi2]].
  - rewrite (isRateLimited_frame ip2 t2 _ ip1 Hne).
    symmetry. now apply isRateLimited_local.
  - rewrite (isRateLimited_frame ip1 t1 _ ip2) by congruence.
    now apply isRateLimited_local.
  - now rewrite !isRateLimited_frame.
Qed.

Lemma limiter_isolates_clients_witness :
  let m : gmap jsstring Entry :=
    {[ js "10.0.0.1" := {| count := 5; windowStart := 0 |} ]} in
  fst (isRateLimited (js "10.0.0.1") 2000
         (snd (isRateLimited (js "10.0.0.2") 1000 m)))
  = fst (isRateLimited (js "10.0.0.1") 2000 m)
  /\ snd (isRateLimited (js "10.0.0.1") 2000
            (snd (isRateLimited (js "10.0.0.2") 1000 m)))
     = snd (isRateLimited (js "10.0.0.2") 1000
              (snd (isRateLimited (js "10.0.0.1") 2000 m))).
Proof.
  apply (limiter_isolates_clients (js "10.0.0.2") (js "10.0.0.1") 1000 2000).
  discriminate.
Defined.

(** X2. Rejected calls do not push the window forward: once a client's
    count has reached the limit, any number of calls within the window
    are all rejected and leave the map as it was, and the first call
    more than 60 seconds after the window's start is admitted with a
    fresh entry, however recent the last rejected call. *)
Theorem rejections_do_not_extend_window (ip : jsstring) (times : list Z)
    (later : Z) (m : gmap jsstring Entry) (entry : Entry) :
  m !! ip = Some entry ->
  5 <= count entry ->
  Forall (fun now => now - windowStart entry <= 60000) times ->
  60000 < later - windowStart entry ->
  calls ip (times ++ [later]) m
  = (map (fun _ => true) times ++ [false],
     <[ip := {| count := 1; windowStart := later |}]> m).
Proof.
  intros Hm Hc HF Hlater.
  rewrite calls_app, (calls_rejected ip times m entry Hm Hc HF).
  cbn [fst snd calls].
  now rewrite (isRateLimited_expired ip later m entry Hm Hlater).
Qed.

Lemma rejections_do_not_extend_window_witness :
  let m : gmap jsstring Entry :=
    {[ js "unknown" := {| count := 5; windowStart := 0 |} ]} in
  calls (js "unknown") ([10000; 30000; 59999; 60000] ++ [60001]) m
  = (map (fun _ => true) [10000; 30000; 59999; 60000] ++ [false],
     <[js "unknown" := {| count := 1; windowStart := 60001 |}]> m).
Proof.
  apply (rejections_do_not_extend_window (js "unknown")
           [10000; 30000; 59999; 60000] 60001
           {[ js "unknown" := {| count := 5; windowStart := 0 |} ]}
           {| count := 5; windowStart := 0 |}).
  - apply lookup_singleton_eq.
  - cbn. lia.
  - repeat constructor; cbn; lia.
  - cbn. lia.
Defined.

(** X3. The window is fixed by its first call and does not slide: after
    a first call at [t1] and up to four more within 60 seconds of it, a
    call at [t2] more than 60 seconds after [t1] opens a new window, and
    it and up to four more calls within 60 seconds of [t2] are admitted,
    however close in time they are to the calls of the first window. *)
Theorem window_is_fixed_not_sliding (ip : jsstring) (t1 t2 : Z)
    (first second : list Z) (m : gmap jsstring Entry) :
  m !! ip = None ->
  (length first <= 4)%nat -> (length second <= 4)%nat ->
  Forall (fun now => now - t1 <= 60000) first ->
  60000 < t2 - t1 ->
  Forall (fun now => now - t2 <= 60000) second ->
  fst (calls ip ((t1 :: first) ++ (t2 :: second)) m)
  = map (fun _ => false) ((t1 :: first) ++ (t2 :: second)).
Proof.
  intros Hnone Hl1 Hl2 HF1 Hlate HF2.
  rewrite calls_app.
  destruct (calls_new_window ip t1 first m) as (m1 & Hc1 & Hm1);
    [now left|unfold RATE_LIMIT; lia|exact HF1|].
  rewrite Hc1. cbn [fst snd].
  destruct (calls_new_window ip t2 second m1) as (m2 & Hc2 & Hm2);
    [right; eexists; split; [exact Hm1|exact Hlate]
    |unfold RATE_LIMIT; lia|exact HF2|].
  rewrite Hc2. cbn [fst]. now rewrite map_app.
Qed.

(** Ten calls admitted, the last nine within one millisecond. *)
Lemma window_is_fixed_not_sliding_witness :
  fst (calls (js "unknown")
         ((0 :: [60000; 60000; 60000; 60000])
          ++ (60001 :: [60001; 60001; 60001; 60001])) ∅)
  = map (fun _ => false)
      ((0 :: [60000; 60000; 60000; 60000])
       ++ (60001 :: [60001; 60001; 60001; 60001])).
Proof.
  apply (window_is_fixed_not_sliding (js "unknown") 0 60001
           [60000; 60000; 60000; 60000] [60001; 60001; 60001; 60001] ∅).
  - reflexivity.
  - cbn. lia.
  - cbn. lia.
  - repeat constructor; lia.
  - lia.
  - repeat constructor; lia.
Defined.

(** X4. In every state the process can reach from the empty map, every
    entry's count is between 1 and 5. *)
Theorem counts_stay_within_limit (arrivals : list Arrival) :
  map_Forall (fun _ entry => 1 <= count entry <= 5)
             (limiter_after arrivals ∅).
Proof. apply (limiter_after_ok arrivals ∅). apply map_Forall_empty. Qed.

(** X5. No entry is ever removed: after any run of requests the map
    holds an entry for every client id it held before and for every
    client id that sent a request, rejected or not, and for no other. *)
Theorem limiter_never_evicts (arrivals : list Arrival)
    (m : gmap jsstring Entry) :
  dom (limiter_after arrivals m)
  = dom m ∪ list_to_set (map client_of arrivals).
Proof.
  revert m. induction arrivals as [|[[g now] request] rest IH]; intros m.
  - cbn. apply set_eq. intros i. rewrite elem_of_union, elem_of_empty. tauto.
  - cbn [limiter_after map]. rewrite IH, POST_limiter, isRateLimited_dom.
    rewrite list_to_set_cons. unfold client_of at 2. cbn [snd].
    apply set_eq. intros i. rewrite !elem_of_union. tauto.
Qed.

(** X6. A client id without an entry is never rejected, so requests
    that each carry a client id not seen before are all admitted,
    however many they are and however fast they come. *)
Theorem unseen_client_ids_are_never_limited (arrivals : list Arrival)
    (m : gmap jsstring Entry) :
  NoDup (map client_of arrivals) ->
  Forall (fun ip => m !! ip = None) (map client_of arrivals) ->
  Forall (fun out => status (response out) <> 429) (handle_all arrivals m).
Proof.
  revert m. induction arrivals as [|[[g now] request] rest IH]; intros m Hnd Hfresh;
    [constructor|].
  cbn [map] in Hnd, Hfresh. apply NoDup_cons in Hnd as [Hnotin Hnd].
  apply Forall_cons in Hfresh as [Hhead Hfresh].
  unfold client_of in Hhead, Hnotin. cbn [snd] in Hhead, Hnotin.
  cbn [handle_all]. constructor.
  - intros H429. apply POST_status_429 in H429.
    now rewrite (isRateLimited_fresh _ now m Hhead) in H429.
  - apply IH; [exact Hnd|]. rewrite POST_limiter.
    rewrite List.Forall_forall in *. intros ip' Hin.
    rewrite isRateLimited_frame; [now apply Hfresh|].
    intros ->. apply Hnotin. now apply list_elem_of_In.
Qed.

Lemma unseen_client_ids_are_never_limited_witness :
  let from (address : jsstring) : Arrival :=
    (fun _ => inr None, 0,
     {| x_forwarded_for := Some address; x_real_ip := None;
        body := body beach_request |}) in
  Forall (fun out => status (response out) <> 429)
    (handle_all [from (js "10.0.0.1"); from (js "10.0.0.2"); from (js "10.0.0.3");
                 from (js "10.0.0.4"); from (js "10.0.0.5"); from (js "10.0.0.6");
                 from (js "10.0.0.7")] ∅).
Proof.
  cbn zeta. apply unseen_client_ids_are_never_limited.
  - vm_compute. repeat (constructor; [rewrite !list_elem_of_In; cbn; intuition discriminate|]).
    constructor.
  - repeat constructor.
Defined.

(** X7. Requests without address headers share one bucket: whoever
    sends them and whatever their bodies, once five of them have been
    admitted in a window the next one in that window is answered 429. *)
Theorem header_less_requests_share_a_bucket (first : Arrival)
    (others : list Arrival) (sixth : Arrival) (m : gmap jsstring Entry) :
  Forall (fun a => header_less (snd a)) (first :: others ++ [sixth]) ->
  m !! js "unknown" = None ->
  length others = 4%nat ->
  Forall (fun a => time_of a - time_of first <= 60000) (others ++ [sixth]) ->
  map (fun out => status (response out) =? 429)
      (handle_all (first :: others ++ [sixth]) m)
  = [false; false; false; false; false; true].
Proof.
  intros Hhl Hnone Hlen Hwin.
  rewrite (handle_all_calls (js "unknown")).
  2:{ eapply Forall_impl; [exact Hhl|]. intros a Ha.
      now apply header_less_unknown. }
  cbn [map]. rewrite map_app. cbn [map].
  change (time_of first :: map time_of others ++ [time_of sixth])
    with ((time_of first :: map time_of others) ++ [time_of sixth]).
  rewrite calls_app.
  apply Forall_app in Hwin as [Hothers Hsixth].
  destruct (calls_new_window (js "unknown") (time_of first) (map time_of others) m)
    as (m5 & Hc & Hm5).
  - now left.
  - rewrite length_map, Hlen. unfold RATE_LIMIT. lia.
  - apply Forall_map. exact Hothers.
  - rewrite Hc. cbn [fst snd]. rewrite length_map, Hlen in Hm5.
    inversion Hsixth as [|? ? H6 _]; subst.
    cbn [calls].
    rewrite (isRateLimited_rejected (js "unknown") (time_of sixth) m5 _ Hm5);
      [|exact H6|cbn; unfold RATE_LIMIT; lia].
    cbn [fst map]. destruct others as [|a1 [|a2 [|a3 [|a4 [|]]]]]; try discriminate.
    reflexivity.
Qed.

Lemma header_less_requests_share_a_bucket_witness :
  let at_ (now : Z) (request : Request) : Arrival :=
    (fun _ => inr None, now, request) in
  map (fun out => status (response out) =? 429)
      (handle_all (at_ 0 empty_request
                   :: [at_ 100 beach_request; at_ 200 empty_request;
                       at_ 300 beach_request; at_ 400 beach_request]
                   ++ [at_ 500 beach_request]) ∅)
  = [false; false; false; false; false; true].
Proof.
  cbn zeta. apply header_less_requests_share_a_bucket.
  - repeat constructor.
  - reflexivity.
  - reflexivity.
  - repeat constructor; cbn; lia.
Defined.

(** ** The validator, the gateway and the answer *)

Lemma prompt_schema_inr (v : option json) (p : jsstring) :
  prompt_schema v = inr p ->
  v = Some (JStr p) /\ (1 <= length p <= 500)%nat.
Proof.
  unfold prompt_schema. destruct v as [[ | | |s| | ]|]; try discriminate.
  destruct (Nat.ltb_spec (length s) 1); [discriminate|].
  destruct (Nat.ltb_spec 500 (length s)); [discriminate|].
  cbn. intros [= <-]. split; [reflexivity|lia].
Qed.

Lemma RequestSchema_inr (v : json) (p : jsstring) :
  RequestSchema_safeParse v = inr p ->
  exists props, v = JObj props
    /\ get_prop props (js "prompt") = Some (JStr p)
    /\ (1 <= length p <= 500)%nat.
Proof.
  destruct v as [ | | | | |props]; try discriminate.
  cbn [RequestSchema_safeParse]. intros H. apply prompt_schema_inr in H.
  exists props. tauto.
Qed.

(** X8. The validator accepts nothing else: whatever the body, when
    validation succeeds the body is an object whose [prompt] is a
    string of 1 to 500 code units, and the accepted prompt is that
    string as it is, neither trimmed nor otherwise changed. *)
Theorem accepted_prompt_is_the_body_prompt (v : json) (p : jsstring) :
  RequestSchema_safeParse v = inr p ->
  exists props, v = JObj props
    /\ get_prop props (js "prompt") = Some (JStr p)
    /\ (1 <= length p <= 500)%nat.
Proof. apply RequestSchema_inr. Qed.

Lemma accepted_prompt_is_the_body_prompt_witness :
  exists props,
    JObj [(js "prompt", JStr (js "  surf  ")); (js "extra", JNull)] = JObj props
    /\ get_prop props (js "prompt") = Some (JStr (js "  surf  "))
    /\ (1 <= length (js "  surf  ") <= 500)%nat.
Proof.
  apply (accepted_prompt_is_the_body_prompt
           (JObj [(js "prompt", JStr (js "  surf  ")); (js "extra", JNull)])
           (js "  surf  ")).
  reflexivity.
Defined.

(** X9. The gateway is called at most once per request, and only with
    the prompt the validator accepted, which has 1 to 500 code units;
    and it is not called at all exactly when the answer is 429 or
    400. *)
Theorem gateway_gets_only_validated_prompts (generateContent : Gateway)
    (now : Z) (m : gmap jsstring Entry) (request : Request) :
  let out := POST generateContent now m request in
  (gateway_calls out = []
   /\ (status (response out) = 429 \/ status (response out) = 400))
  \/ (exists p, gateway_calls out = [p]
        /\ RequestSchema_safeParse (request_json request) = inr p
        /\ (1 <= length p <= 500)%nat
        /\ (status (response out) = 200 \/ status (response out) = 500)).
Proof.
  cbn zeta. unfold POST.
  destruct (isRateLimited _ _ _) as [[|] ?]; [left; cbn; auto|].
  destruct (RequestSchema_safeParse _) as [errors|p] eqn:Hv; [left; cbn; auto|].
  right. exists p. apply RequestSchema_inr in Hv as (props & _ & _ & Hlen).
  destruct (generateContent p); [cbn; auto|].
  cbn zeta. destruct (assemble _); cbn; auto.
Qed.




(** ** The two layers of validation *)

Lemma number_eqb_refl_finite (x : number) :
  is_finite_nonzero x -> number_eqb x x = true.
Proof.
  destruct x as [ | | |s p e]; try contradiction. intros _.
  unfold number_eqb, SFeqb, SFcompare.
  destruct s; rewrite Z.compare_refl;
    change (PosDef.Pos.compare_cont Eq p p) with (Pos.compare p p);
    now rewrite Pos.compare_refl.
Qed.

Lemma whitelisted_known (m : json) : whitelisted m -> known m = true.
Proof.
  intros (x & Hx & Hin). unfold known. rewrite Hx.
  unfold VALID_IDS in Hin. apply in_map_iff in Hin as (it & <- & Hit).
  apply existsb_exists. exists it. split; [exact Hit|].
  cbn [strict_equals]. apply number_eqb_refl_finite.
  now apply inventory_id_finite.
Qed.

Lemma filter_all {A} (f : A -> bool) (l : list A) :
  Forall (fun a => f a = true) l -> List.filter f l = l.
Proof.
  induction 1 as [|a l Ha _ IH]; [reflexivity|]. cbn. now rewrite Ha, IH.
Qed.

(** The result a match contributes, in terms of its id and reason
    only. *)
Lemma joined_unfold (m : json) :
  joined m
  = match List.find (fun inv => strict_equals (id inv) (fst (match_key m)))
                    INVENTORY with
    | Some it => Some {| item := it; reason := snd (match_key m) |}
    | None => None
    end.
Proof.
  unfold joined, join_match, match_key. cbn [fst snd].
  destruct m; try reflexivity;
    match goal with
    | |- context [List.find ?f INVENTORY] =>
        now destruct (List.find f INVENTORY)
    end.
Qed.

Lemma joined_key_only (m m' : json) :
  match_key m = match_key m' -> joined m = joined m'.
Proof. intros H. now rewrite !joined_unfold, H. Qed.

Lemma omap_joined_key_only (l l' : list json) :
  map match_key l = map match_key l' -> omap joined l = omap joined l'.
Proof.
  revert l'. induction l as [|m l IH]; intros [|m' l']; try discriminate;
    [reflexivity|].
  cbn [map]. intros H.
  assert (match_key m = match_key m' /\ map match_key l = map match_key l')
    as [Hk Hrest] by (split; congruence).
  cbn [omap list_omap].
  rewrite (joined_key_only m m' Hk). destruct (joined m'); now rewrite (IH l').
Qed.

Lemma match_schema_lenient (v o : json) :
  match_schema v = Some o ->
  lenient_keep v = true /\ match_key o = match_key v.
Proof.
  intros H. apply match_schema_Some in H as (x & r & -> & Hid & Hr & Hin & _).
  split.
  - unfold lenient_keep. rewrite Hid, Hr. cbn [typeof_string includes].
    rewrite andb_true_r. apply existsb_exists. exists x. split; [exact Hin|].
    pose proof VALID_IDS_finite as HF. rewrite List.Forall_forall in HF.
    specialize (HF x Hin). destruct x; try contradiction.
    now apply number_eqb_refl_finite.
  - unfold match_key. now rewrite Hid, Hr.
Qed.

Lemma validate_candidate_keys (candidate : list json) :
  map match_key (validate_candidate candidate)
  = map match_key (List.filter lenient_keep candidate).
Proof.
  unfold validate_candidate, AiMatchSchema_safeParse.
  destruct (mapM match_schema candidate) as [data|] eqn:HM; [|reflexivity].
  apply mapM_Some in HM.
  induction HM as [|v o vs os Hv _ IH]; [reflexivity|].
  apply match_schema_lenient in Hv as [Hkeep Hkey].
  cbn [List.filter map]. rewrite Hkeep. cbn [map]. now rewrite Hkey, IH.
Qed.

(** X12. The strict schema never changes the answer: for every
    candidate list, the matches that step 4 keeps carry the same ids and
    reasons, in the same order, as those the fallback filter alone would
    keep, and the join gives the same results for both. *)
Theorem strict_schema_changes_no_result (candidate : list json) :
  map match_key (validate_candidate candidate)
  = map match_key (List.filter lenient_keep candidate)
  /\ assemble (validate_candidate candidate)
     = assemble (List.filter lenient_keep candidate).
Proof.
  split; [apply validate_candidate_keys|].
  destruct (assemble_total (validate_candidate candidate)) as [rs Hrs].
  { eapply Forall_impl; [apply validate_candidate_shape|]. now intros ? [? _]. }
  destruct (assemble_total (List.filter lenient_keep candidate)) as [rs' Hrs'].
  { apply List.Forall_forall. intros x Hx. apply filter_In in Hx as [_ Hx].
    now apply lenient_keep_spec in Hx as [? _]. }
  rewrite Hrs, Hrs'. apply assemble_omap in Hrs as ->.
  apply assemble_omap in Hrs' as ->. f_equal.
  apply omap_joined_key_only, validate_candidate_keys.
Qed.

(** X13. The lookup of step 5 never drops a match that step 4 let
    through: for every raw text the join succeeds and gives exactly one
    result per match, in order, each with the id and the reason of its
    match; a match the model repeats is a result repeated. *)
Theorem every_sanitized_match_becomes_a_result (rawContent : jsstring) :
  exists results,
    assemble (sanitize rawContent) = Some results
    /\ map result_key results = map match_key (sanitize rawContent)
    /\ length results = length (sanitize rawContent).
Proof.
  assert (Forall whitelisted (sanitize rawContent)) as HW.
  { eapply Forall_impl; [apply sanitize_shape|]. now intros ? [? _]. }
  destruct (assemble_total _ HW) as [rs Hrs]. exists rs.
  split; [exact Hrs|].
  assert (map result_key rs = map match_key (sanitize rawContent)) as Hkeys.
  { apply assemble_omap in Hrs as ->. rewrite omap_joined_keys.
    rewrite filter_all; [reflexivity|].
    eapply Forall_impl; [exact HW|]. apply whitelisted_known. }
  split; [exact Hkeys|].
  apply (f_equal (@length _)) in Hkeys. now rewrite !length_map in Hkeys.
Qed.

(** ** The client id *)

Lemma drop_spaces_split (s : jsstring) :
  exists lead, s = lead ++ drop_spaces s /\ blank lead
    /\ (forall c, head (drop_spaces s) = Some c -> is_js_space c = false).
Proof.
  induction s as [|c s (lead & Hs & Hlead & Hhead)].
  - exists []. repeat split; [constructor|discriminate].
  - cbn [drop_spaces]. destruct (is_js_space c) eqn:Hc.
    + exists (c :: lead). split; [cbn; now rewrite <- Hs|].
      split; [now constructor|exact Hhead].
    + exists []. split; [reflexivity|]. split; [constructor|].
      cbn. now intros ? [= <-].
Qed.

Lemma head_app_nonnil {A} (l1 l2 : list A) :
  l1 <> [] -> head (l1 ++ l2) = head l1.
Proof. destruct l1; [contradiction|reflexivity]. Qed.

(** [trim] removes exactly the white space at both ends. *)
Lemma trim_split (s : jsstring) :
  exists lead trail,
    s = lead ++ trim s ++ trail /\ blank lead /\ blank trail /\ trimmed (trim s).
Proof.
  destruct (drop_spaces_split s) as (lead & Hs & Hlead & Hhead).
  destruct (drop_spaces_split (rev (drop_spaces s))) as (tl & Hr & Htl & Hlast).
  exists lead, (rev tl). unfold trim.
  set (core := drop_spaces (rev (drop_spaces s))) in *.
  assert (drop_spaces s = rev core ++ rev tl) as Hmid.
  { rewrite <- rev_app_distr, <- Hr. now rewrite rev_involutive. }
  split; [now rewrite <- Hmid|]. split; [exact Hlead|].
  split; [unfold blank in *; now apply Forall_rev|].
  split.
  - intros c Hc. apply Hhead. rewrite Hmid.
    destruct (rev core) eqn:E; [discriminate|].
    rewrite head_app_nonnil by discriminate. exact Hc.
  - intros c Hc. apply Hlast. apply last_Some in Hc as [l' Hl'].
    apply (f_equal (@rev _)) in Hl'. rewrite rev_involutive, rev_app_distr in Hl'.
    now rewrite Hl'.
Qed.

Lemma first_field_split (s : jsstring) :
  exists rest, s = first_field s ++ rest
    /\ (rest = [] \/ head rest = Some 44%N)
    /\ ~ In 44%N (first_field s).
Proof.
  induction s as [|c s (rest & Hs & Hrest & Hno)].
  - exists []. cbn. tauto.
  - cbn [first_field]. destruct (N.eqb_spec c 44) as [->|Hc].
    + exists (44%N :: s). cbn. tauto.
    + exists rest. split; [cbn; now rewrite <- Hs|]. split; [exact Hrest|].
      cbn. intros [E|E]; [congruence|contradiction].
Qed.

(** X14. When the forwarded-address header is present, the client id is
    the text before the first comma of its value with the white space
    at both ends removed: it holds no comma, starts and ends with no
    white space, and is empty when that text is blank; the real-address
    header plays no part, even then. *)
Theorem forwarded_address_decides_client_id (request : Request) (h : jsstring) :
  x_forwarded_for request = Some h ->
  exists lead trail rest,
    h = lead ++ client_ip request ++ trail ++ rest
    /\ blank lead /\ blank trail
    /\ (rest = [] \/ head rest = Some 44%N)
    /\ ~ In 44%N (lead ++ client_ip request ++ trail)
    /\ trimmed (client_ip request)
    /\ (blank (lead ++ client_ip request ++ trail) -> client_ip request = []).
Proof.
  intros Hf. unfold client_ip. rewrite Hf.
  destruct (first_field_split h) as (rest & Hh & Hrest & Hno).
  destruct (trim_split (first_field h)) as (lead & trail & Hs & Hl & Ht & Htrim).
  exists lead, trail, rest.
  split; [rewrite Hh at 1; rewrite Hs at 1; now rewrite <- !app_assoc|].
  split; [exact Hl|]. split; [exact Ht|]. split; [exact Hrest|].
  split; [now rewrite <- Hs|]. split; [exact Htrim|].
  intros Hblank. unfold blank in Hblank.
  apply Forall_app in Hblank as [_ Hblank].
  apply Forall_app in Hblank as [Hcore _].
  destruct (trim (first_field h)) as [|c core] eqn:E; [reflexivity|].
  exfalso. destruct Htrim as [Hhead _]. specialize (Hhead c eq_refl).
  inversion Hcore; subst. congruence.
Qed.

Lemma forwarded_address_decides_client_id_witness :
  let request := {| x_forwarded_for := Some (js "  203.0.113.7 , 10.0.0.1,x");
                    x_real_ip := Some (js "10.9.9.9"); body := [] |} in
  exists lead trail rest,
    js "  203.0.113.7 , 10.0.0.1,x"
    = lead ++ client_ip request ++ trail ++ rest
    /\ blank lead /\ blank trail
    /\ (rest = [] \/ head rest = Some 44%N)
    /\ ~ In 44%N (lead ++ client_ip request ++ trail)
    /\ trimmed (client_ip request)
    /\ (blank (lead ++ client_ip request ++ trail) -> client_ip request = []).
Proof.
  cbn zeta. apply forwarded_address_decides_client_id. reflexivity.
Defined.

(** ** From the page's request body back to the prompt *)

Lemma lex_run_app (m : lexmode) (out : list token) (s1 s2 : jsstring) :
  lex_run m out (s1 ++ s2)
  = match lex_run m out s1 with
    | Some (m', out') => lex_run m' out' s2
    | None => None
    end.
Proof.
  revert m out. induction s1 as [|c s1 IH]; intros m out; [reflexivity|].
  cbn [lex_run app]. destruct (lex_char m out c) as [[m' out']|]; [apply IH|].
  reflexivity.
Qed.

Lemma lex_from_app (m : lexmode) (out : list token) (s1 s2 : jsstring) :
  lex_from m out (s1 ++ s2)
  = match lex_run m out s1 with
    | Some (m', out') => lex_from m' out' s2
    | None => None
    end.
Proof.
  revert m out. induction s1 as [|c s1 IH]; intros m out; [reflexivity|].
  cbn [lex_run lex_from app].
  destruct (lex_char m out c) as [[m' out']|]; [apply IH|reflexivity].
Qed.

Lemma hex_digit_hex_char (d : N) : (d < 16)%N -> hex_digit (hex_char d) = Some d.
Proof.
  intros Hd. unfold hex_digit, hex_char, is_digit.
  destruct (N.ltb_spec d 10).
  - destruct (N.leb_spec 48 (48 + d)); [|lia].
    destruct (N.leb_spec (48 + d) 57); [|lia].
    cbn. f_equal. lia.
  - destruct (N.leb_spec 48 (87 + d)); [|lia].
    destruct (N.leb_spec (87 + d) 57); [lia|]. cbn.
    destruct (N.leb_spec 97 (87 + d)); [|lia].
    destruct (N.leb_spec (87 + d) 102); [|lia].
    cbn. f_equal. lia.
Qed.

Lemma lex_char_verbatim (acc : jsstring) (out : list token) (c : N) :
  c <> 34%N -> c <> 92%N -> (32 <= c)%N ->
  lex_char (LString acc) out c = Some (LString (c :: acc), out).
Proof.
  intros H34 H92 H32. cbn [lex_char].
  destruct (N.eqb_spec c 34); [contradiction|].
  destruct (N.eqb_spec c 92); [contradiction|].
  destruct (N.ltb_spec c 32); [lia|reflexivity].
Qed.

Lemma lex_run_unicode_escape (acc : jsstring) (out : list token) (c : N) :
  (c < 65536)%N ->
  lex_run (LString acc) out (unicode_escape c) = Some (LString (c :: acc), out).
Proof.
  intros Hc. unfold unicode_escape.
  change (lex_run (LString acc) out
            (92%N :: 117%N :: hex_char ((c / 4096) mod 16)
             :: hex_char ((c / 256) mod 16) :: hex_char ((c / 16) mod 16)
             :: [hex_char (c mod 16)]))
    with (lex_run (LUnicode acc 4 0) out
            (hex_char ((c / 4096) mod 16) :: hex_char ((c / 256) mod 16)
             :: hex_char ((c / 16) mod 16) :: [hex_char (c mod 16)])).
  cbn [lex_run lex_char].
  repeat (rewrite hex_digit_hex_char by (apply N.mod_lt; discriminate);
          cbn [lex_run lex_char]).
  do 3 f_equal.
  assert (c / 4096 < 16)%N by (apply N.Div0.div_lt_upper_bound; lia).
  rewrite (N.mod_small (c / 4096) 16) by assumption.
  pose proof (N.div_mod c 16 ltac:(discriminate)) as E0.
  pose proof (N.div_mod (c / 16) 16 ltac:(discriminate)) as E1.
  pose proof (N.div_mod (c / 256) 16 ltac:(discriminate)) as E2.
  rewrite N.Div0.div_div in E1. rewrite N.Div0.div_div in E2.
  change (16 * 16)%N with 256%N in *. change (256 * 16)%N with 4096%N in *.
  f_equal. lia.
Qed.

Lemma lex_run_quote_unit (acc : jsstring) (out : list token) (c : N) :
  lex_run (LString acc) out (quote_unit c) = Some (LString (c :: acc), out).
Proof.
  unfold quote_unit.
  repeat match goal with
         | |- context [(c =? ?k)%N] =>
             destruct (N.eqb_spec c k); [subst; reflexivity|]
         end.
  destruct (N.ltb_spec c 32).
  - apply lex_run_unicode_escape. lia.
  - cbn [lex_run]. now rewrite lex_char_verbatim by (assumption || lia).
Qed.

Lemma surrogate_verbatim (acc : jsstring) (out : list token) (c : N) :
  is_high_surrogate c || is_low_surrogate c = true ->
  lex_char (LString acc) out c = Some (LString (c :: acc), out)
  /\ (c < 65536)%N.
Proof.
  unfold is_high_surrogate, is_low_surrogate. intros H.
  assert (55296 <= c <= 57343)%N as Hc.
  { apply orb_true_iff in H as [H|H]; apply andb_true_iff in H as [H1 H2];
      apply N.leb_le in H1, H2; lia. }
  split; [apply lex_char_verbatim; lia|lia].
Qed.

Lemma lex_run_quote_units (n : nat) (s : jsstring) :
  (length s <= n)%nat ->
  forall acc out,
    lex_run (LString acc) out (quote_units s) = Some (LString (rev s ++ acc), out).
Proof.
  revert s. induction n as [|n IH]; intros [|c rest] Hlen acc out;
    try reflexivity; cbn [length] in Hlen; [lia|].
  assert (forall acc, lex_run (LString acc) out (quote_units rest)
                      = Some (LString (rev rest ++ acc), out)) as IHrest
    by (intros; apply IH; lia).
  assert (forall l, rev l ++ c :: acc = rev (c :: l) ++ acc) as Hrev
    by (intros; cbn [rev]; now rewrite <- app_assoc).
  cbn [quote_units].
  destruct (is_high_surrogate c) eqn:Hhigh.
  - destruct (surrogate_verbatim acc out c) as [Hc Hlt]; [now rewrite Hhigh|].
    destruct rest as [|d rest'].
    + now apply lex_run_unicode_escape.
    + destruct (is_low_surrogate d) eqn:Hlow.
      * destruct (surrogate_verbatim (c :: acc) out d) as [Hd _];
          [now rewrite Hlow, orb_true_r|].
        cbn [lex_run]. rewrite Hc, Hd. cbn [length] in Hlen.
        rewrite IH by lia. cbn [rev]. now rewrite <- !app_assoc.
      * rewrite lex_run_app, lex_run_unicode_escape by exact Hlt.
        now rewrite IHrest, Hrev.
  - destruct (is_low_surrogate c) eqn:Hlow.
    + destruct (surrogate_verbatim acc out c) as [_ Hlt];
        [now rewrite Hlow, orb_true_r|].
      rewrite lex_run_app, lex_run_unicode_escape by exact Hlt.
      now rewrite IHrest, Hrev.
    + rewrite lex_run_app, lex_run_quote_unit. now rewrite IHrest, Hrev.
Qed.

Lemma lex_run_QuoteJSONString (out : list token) (s : jsstring) :
  lex_run LStart out (QuoteJSONString s) = Some (LStart, TString s :: out).
Proof.
  unfold QuoteJSONString.
  change (lex_run LStart out (34%N :: quote_units s ++ [34%N]))
    with (lex_run (LString []) out (quote_units s ++ [34%N])).
  rewrite lex_run_app, (lex_run_quote_units (length s) s (le_n _)).
  cbn. now rewrite app_nil_r, rev_involutive.
Qed.

Lemma JSON_parse_request_body (p : jsstring) :
  JSON_parse (Page.request_body p) = Some (JObj [(js "prompt", JStr p)]).
Proof.
  unfold JSON_parse, tokenize, Page.request_body.
  rewrite lex_from_app.
  change (lex_run LStart [] (jsq "{'prompt':"))
    with (Some (LStart, [TColon; TString (js "prompt"); TLBrace])).
  cbn match. rewrite lex_from_app, lex_run_QuoteJSONString.
  reflexivity.
Qed.

(** ** The page *)

Lemma trim_nil_iff (s : jsstring) : trim s = [] <-> blank s.
Proof.
  destruct (trim_split s) as (lead & trail & Hs & Hl & Ht & Hhead & _).
  split.
  - intros E. rewrite E in Hs. rewrite Hs. unfold blank in *.
    apply Forall_app. now split.
  - intros Hb. rewrite Hs in Hb. unfold blank in Hb.
    apply Forall_app in Hb as [_ Hb]. apply Forall_app in Hb as [Hb _].
    destruct (trim s) as [|c core]; [reflexivity|].
    specialize (Hhead c eq_refl). inversion Hb; subst. congruence.
Qed.

Lemma handleSearch_sends (searchPrompt : option jsstring)
    (fetch : jsstring -> Page.Fetched) (st : Page.State) :
  ~ blank (default (Page.prompt st) searchPrompt) ->
  Page.handleSearch searchPrompt fetch st
  = (let p := trim (default (Page.prompt st) searchPrompt) in
     let '(rs, err) := Page.settle (fetch (Page.request_body p)) in
     ({| Page.prompt := Page.prompt st; Page.loading := false;
         Page.results := rs; Page.error := err; Page.hasSearched := true |},
      [Page.request_body p])).
Proof.
  intros Hnb. unfold Page.handleSearch.
  destruct (trim (default (Page.prompt st) searchPrompt)) eqn:E; [|reflexivity].
  apply trim_nil_iff in E. contradiction.
Qed.

Lemma settle_exclusive (f : Page.Fetched) :
  (is_Some (fst (Page.settle f)) /\ snd (Page.settle f) = None)
  \/ (fst (Page.settle f) = None /\ is_Some (snd (Page.settle f))).
Proof.
  destruct f as [[message|]|status data]; cbn [Page.settle]; [right; eauto..|].
  destruct (Page.ok status).
  - destruct data as [[ | | | | | ]|]; cbn; eauto.
  - destruct data as [[ | | | | | ]|]; cbn; eauto.
Qed.

(** X15. A search on a blank prompt sends no request and leaves the
    state of the page as it was; any other prompt sends exactly one
    request, whose body is the JSON text of the prompt without the white
    space at its ends. *)
Theorem blank_prompt_sends_nothing (searchPrompt : option jsstring)
    (fetch : jsstring -> Page.Fetched) (st : Page.State) :
  let p := default (Page.prompt st) searchPrompt in
  (blank p -> Page.handleSearch searchPrompt fetch st = (st, []))
  /\ (~ blank p ->
      snd (Page.handleSearch searchPrompt fetch st)
      = [Page.request_body (trim p)]).
Proof.
  cbn zeta. split.
  - intros Hb. apply trim_nil_iff in Hb. unfold Page.handleSearch.
    now rewrite Hb.
  - intros Hnb. rewrite (handleSearch_sends _ _ _ Hnb). cbn zeta.
    now destruct (Page.settle _).
Qed.

Lemma blank_prompt_sends_nothing_witness :
  let st := {| Page.prompt := js "   "; Page.loading := false;
               Page.results := None; Page.error := None;
               Page.hasSearched := false |} in
  Page.handleSearch None (fun _ => Page.Failed None) st = (st, [])
  /\ snd (Page.handleSearch (Some (js " surf ")) (fun _ => Page.Failed None) st)
     = [jsq "{'prompt':'surf'}"].
Proof.
  cbn zeta. split.
  - apply (blank_prompt_sends_nothing None). repeat constructor.
  - apply (blank_prompt_sends_nothing (Some (js " surf "))).
    intros Hb. inversion Hb as [|? ? _ Hb']. inversion Hb' as [|? ? Hs _].
    discriminate Hs.
Defined.

(** X16. The body the page sends reads back as it was written: for
    every prompt, whatever quotation marks, reverse solidi, control
    characters or lone surrogates it holds, [JSON.parse] of
    [JSON.stringify({ prompt })] is the object whose only property is
    that very prompt. *)
Theorem request_body_round_trip (p : jsstring) :
  JSON_parse (Page.request_body p) = Some (JObj [(js "prompt", JStr p)])
  /\ request_json {| x_forwarded_for := None; x_real_ip := None;
                     body := Page.request_body p |}
     = JObj [(js "prompt", JStr p)].
Proof.
  split; [apply JSON_parse_request_body|].
  unfold request_json. cbn [body]. now rewrite JSON_parse_request_body.
Qed.

(** X17. The page and the handler agree on the cap: when a request
    carries a body the page sent for a prompt whose text without the
    white space at its ends has at most 500 code units, the handler, if
    it admits the request, never answers 400 and calls the gateway with
    exactly that text; when the text is longer, the handler answers 400
    with its over-length message. *)
Theorem page_prompt_passes_validation (searchPrompt : option jsstring)
    (fetch : jsstring -> Page.Fetched) (st : Page.State)
    (generateContent : Gateway) (now : Z) (m : gmap jsstring Entry)
    (request : Request) :
  In (body request) (snd (Page.handleSearch searchPrompt fetch st)) ->
  fst (isRateLimited (client_ip request) now m) = false ->
  let p := trim (default (Page.prompt st) searchPrompt) in
  ((length p <= Page.MAX_PROMPT_LENGTH)%nat ->
   gateway_calls (POST generateContent now m request) = [p]
   /\ status (response (POST generateContent now m request)) <> 400)
  /\ ((Page.MAX_PROMPT_LENGTH < length p)%nat ->
      response (POST generateContent now m request)
      = {| status := 400;
           payload := Error (Text (js "prompt must be 500 characters or fewer")) |}).
Proof.
  intros Hsent Hadm. cbn zeta.
  set (p := trim (default (Page.prompt st) searchPrompt)).
  assert (p <> [] /\ body request = Page.request_body p) as [Hne Hbody].
  { unfold Page.handleSearch in Hsent. fold p in Hsent.
    destruct p eqn:E; [destruct Hsent|]. rewrite <- E in *.
    destruct (Page.settle _). cbn in Hsent. destruct Hsent as [<-|[]].
    split; [congruence|reflexivity]. }
  assert (request_json request = JObj [(js "prompt", JStr p)]) as Hjson.
  { unfold request_json. now rewrite Hbody, JSON_parse_request_body. }
  unfold Page.MAX_PROMPT_LENGTH. split.
  - intros Hlen.
    assert (RequestSchema_safeParse (request_json request) = inr p) as Hv.
    { rewrite Hjson. unfold RequestSchema_safeParse, prompt_schema.
      change (get_prop [(js "prompt", JStr p)] (js "prompt")) with (Some (JStr p)).
      destruct p; [congruence|]. cbn [length] in *.
      destruct (Nat.ltb_spec (S (length p)) 1); [lia|].
      destruct (Nat.ltb_spec 500 (S (length p))); [lia|reflexivity]. }
    unfold POST. destruct (isRateLimited _ _ _) as [l m']. cbn in Hadm. subst l.
    rewrite Hv. destruct (generateContent p); [cbn; split; [reflexivity|lia]|].
    cbn zeta. destruct (assemble _); cbn; split; (reflexivity || lia).
  - intros Hlen. apply POST_invalid with (more := []); [exact Hadm|].
    rewrite Hjson. unfold RequestSchema_safeParse, prompt_schema.
    change (get_prop [(js "prompt", JStr p)] (js "prompt")) with (Some (JStr p)).
    cbn match.
    repeat match goal with
           | |- context [Nat.ltb ?a ?b] => destruct (Nat.ltb_spec a b); try lia
           end.
    reflexivity.
Qed.

Lemma page_prompt_passes_validation_witness :
  let st := {| Page.prompt := js "  wild  "; Page.loading := false;
               Page.results := None; Page.error := None;
               Page.hasSearched := false |} in
  let request := {| x_forwarded_for := None; x_real_ip := None;
                    body := jsq "{'prompt':'wild'}" |} in
  gateway_calls (POST (fun _ => inr None) 0 ∅ request) = [js "wild"]
  /\ status (response (POST (fun _ => inr None) 0 ∅ request)) <> 400.
Proof.
  cbn zeta.
  destruct (page_prompt_passes_validation None (fun _ => Page.Failed None)
              {| Page.prompt := js "  wild  "; Page.loading := false;
                 Page.results := None; Page.error := None;
                 Page.hasSearched := false |}
              (fun _ => inr None) 0 ∅
              {| x_forwarded_for := None; x_real_ip := None;
                 body := jsq "{'prompt':'wild'}" |}) as [Hshort _].
  - left. reflexivity.
  - reflexivity.
  - apply Hshort. vm_compute. lia.
Defined.

(** X18. However the request ends, once a search on a prompt that is
    not blank is over the page is not loading, a search has been
    recorded, the prompt is as it was, and exactly one of the results
    and the error is set. *)
Theorem search_ends_with_results_or_error (searchPrompt : option jsstring)
    (fetch : jsstring -> Page.Fetched) (st : Page.State) :
  ~ blank (default (Page.prompt st) searchPrompt) ->
  let st' := fst (Page.handleSearch searchPrompt fetch st) in
  Page.loading st' = false
  /\ Page.hasSearched st' = true
  /\ Page.prompt st' = Page.prompt st
  /\ ((is_Some (Page.results st') /\ Page.error st' = None)
      \/ (Page.results st' = None /\ is_Some (Page.error st'))).
Proof.
  intros Hnb. rewrite (handleSearch_sends _ _ _ Hnb). cbn zeta.
  pose proof (settle_exclusive
                (fetch (Page.request_body
                          (trim (default (Page.prompt st) searchPrompt))))) as H.
  destruct (Page.settle _) as [rs err]. cbn in *. auto.
Qed.

Lemma search_ends_with_results_or_error_witness :
  let st := {| Page.prompt := js "tea"; Page.loading := false;
               Page.results := Some (JArr []); Page.error := None;
               Page.hasSearched := true |} in
  let st' := fst (Page.handleSearch None (fun _ => Page.Answered 502 None) st) in
  Page.loading st' = false
  /\ Page.hasSearched st' = true
  /\ Page.prompt st' = Page.prompt st
  /\ ((is_Some (Page.results st') /\ Page.error st' = None)
      \/ (Page.results st' = None /\ is_Some (Page.error st'))).
Proof.
  cbn zeta. apply (search_ends_with_results_or_error None).
  intros Hb. inversion Hb as [|? ? Hs _]. discriminate Hs.
Defined.

Lemma POST_payload_status (generateContent : Gateway) (now : Z)
    (m : gmap jsstring Entry) (request : Request) :
  match payload (response (POST generateContent now m request)) with
  | Results _ => status (response (POST generateContent now m request)) = 200
  | Error _ =>
      In (status (response (POST generateContent now m request))) [400; 429; 500]
  end.
Proof. post_cases generateContent; cbn; tauto. Qed.

Lemma mapM_result_json (results : list SearchResult) :
  Forall (fun r => exists s, reason r = Some (JStr s)) results ->
  exists values, mapM result_json results = Some values
                 /\ length values = length results.
Proof.
  induction 1 as [|r rs (s & Hs) _ (values & Hv & Hlen)].
  - exists []. now split.
  - assert (is_Some (result_json r)) as [v Hr]
      by (unfold result_json; rewrite Hs; eauto).
    cbn [mapM]. rewrite Hr, Hv. cbn.
    eexists. split; [reflexivity|]. cbn. now rewrite Hlen.
Qed.

(** X19. The page shows what the handler answered: for a search that
    is sent and answered by the handler, a 200 answer leaves the
    handler's results, as many and in the same order, in the page's
    state and no error; a 429, 400 or 500 answer leaves no results and
    the handler's error text, word for word, as the page's error. *)
Theorem page_shows_the_handler_answer (searchPrompt : option jsstring)
    (fetch : jsstring -> Page.Fetched) (st : Page.State)
    (generateContent : Gateway) (now : Z) (m : gmap jsstring Entry)
    (request : Request) :
  let p := default (Page.prompt st) searchPrompt in
  let resp := response (POST generateContent now m request) in
  let st' := fst (Page.handleSearch searchPrompt fetch st) in
  (payload resp <> Error EngineMessage -> is_Some (wire resp))
  /\ (~ blank p ->
      body request = Page.request_body (trim p) ->
      wire resp = Some (fetch (body request)) ->
      match payload resp with
      | Results results =>
          Page.error st' = None
          /\ exists values,
               mapM result_json results = Some values
               /\ length values = length results
               /\ Page.results st' = Some (JArr values)
      | Error (Text message) =>
          Page.results st' = None /\ Page.error st' = Some (Page.Said message)
      | Error EngineMessage => False
      end).
Proof.
  cbn zeta.
  pose proof (POST_payload_status generateContent now m request) as Hstatus.
  split.
  - intros Hne. unfold wire.
    destruct (payload _) as [rs|[message|]] eqn:Hp; [|eauto|congruence].
    destruct (mapM_result_json rs) as (values & -> & _); [|eauto].
    now apply (POST_reasons_are_strings generateContent now m request).
  - intros Hnb Hbody Hwire. rewrite (handleSearch_sends _ _ _ Hnb). cbn zeta.
    rewrite <- Hbody. unfold wire in Hwire.
    destruct (payload _) as [rs|[message|]] eqn:Hp; [| |discriminate].
    + destruct (mapM result_json rs) as [values|] eqn:Hv; [|discriminate].
      injection Hwire as <-. rewrite Hstatus. cbn. split; [reflexivity|].
      exists values. split; [reflexivity|]. split; [|reflexivity].
      destruct (mapM_result_json rs) as (values' & Hv' & Hlen).
      { now apply (POST_reasons_are_strings generateContent now m request). }
      congruence.
    + injection Hwire as <-.
      assert (Page.ok (status (response (POST generateContent now m request)))
              = false) as Hok.
      { cbn in Hstatus. destruct Hstatus as [<-|[<-|[<-|[]]]]; reflexivity. }
      unfold Page.settle. rewrite Hok. cbn. now split.
Qed.

Lemma page_shows_the_handler_answer_witness :
  let st := {| Page.prompt := js "surf"; Page.loading := false;
               Page.results := None; Page.error := None;
               Page.hasSearched := false |} in
  let m : gmap jsstring Entry :=
    {[ js "unknown" := {| count := 5; windowStart := 0 |} ]} in
  let request := {| x_forwarded_for := None; x_real_ip := None;
                    body := jsq "{'prompt':'surf'}" |} in
  let fetch := fun _ : jsstring =>
    Page.Answered 429
      (Some (JObj [(js "error",
                    JStr (js "Too many requests. Please wait a moment before trying again."))])) in
  Page.results (fst (Page.handleSearch None fetch st)) = None
  /\ Page.error (fst (Page.handleSearch None fetch st))
     = Some (Page.Said
               (js "Too many requests. Please wait a moment before trying again.")).
Proof.
  cbn zeta.
  destruct (page_shows_the_handler_answer None
              (fun _ : jsstring =>
                 Page.Answered 429
                   (Some (JObj [(js "error",
                                 JStr (js "Too many requests. Please wait a moment before trying again."))])))
              {| Page.prompt := js "surf"; Page.loading := false;
                 Page.results := None; Page.error := None;
                 Page.hasSearched := false |}
              (fun _ => inr None) 1000
              {[ js "unknown" := {| count := 5; windowStart := 0 |} ]}
              {| x_forwarded_for := None; x_real_ip := None;
                 body := jsq "{'prompt':'surf'}" |}) as [_ Hshown].
  apply Hshown.
  - intros Hb. inversion Hb as [|? ? Hs _]. discriminate Hs.
  - reflexivity.
  - reflexivity.
Defined.

(** ** What the model cannot change *)

Lemma omap_joined_items (aiMatches : list json) :
  Forall (fun r => In (item r) INVENTORY) (omap joined aiMatches).
Proof.
  apply List.Forall_forall. intros r Hr.
  apply list_elem_of_In, list_elem_of_omap in Hr as (mt & _ & Hj).
  now apply joined_Some in Hj as (Hin & _).
Qed.

(** X20. The model chooses which items are returned and with what
    reason, and nothing else: every result of every answer is an item of
    the inventory as it stands there (title, location, price and tags
    included), whatever other fields the model's matches carry; and as
    the inventory's ids are distinct, the id decides the item. *)
Theorem results_are_inventory_items (generateContent : Gateway) (now : Z)
    (m : gmap jsstring Entry) (request : Request) :
  NoDup (map id INVENTORY)
  /\ match payload (response (POST generateContent now m request)) with
     | Results results => Forall (fun r => In (item r) INVENTORY) results
     | Error _ => True
     end.
Proof.
  split.
  - vm_compute.
    repeat (constructor; [rewrite !list_elem_of_In; cbn; intuition discriminate|]).
    constructor.
  - post_cases generateContent; cbn [response payload]; try exact I.
    match goal with
    | H : assemble ?ms = Some _ |- _ => apply assemble_omap in H as ->
    end.
    apply omap_joined_items.
Qed.
